(** * update_categories.py: the category-literal rewrite and its import step

    A shallow embedding of [scripts/archive/update_categories.py].  The script
    reads a TypeScript file, replaces category string literals by references
    to the [CATEGORIES] constant table, adds the import of that table where
    it is needed and writes the file back.

    Text is a list of characters.  Every pattern, replacement and search key
    of the script is plain ASCII, so substring search, splitting at the
    newline and replacement act on the UTF-8 bytes of a file exactly as they
    act on its code points. *)

From Stdlib Require Import List Ascii String Bool Arith Lia DecimalString.
From Stdlib Require Import Permutation.
Import ListNotations.

(** ** Text *)

Definition text := list ascii.

Definition T (s : string) : text := list_ascii_of_string s.

Definition NL : ascii := "010"%char.
Definition DQ : ascii := "034"%char.

Fixpoint text_eqb (a b : text) : bool :=
  match a, b with
  | [], [] => true
  | x :: a', y :: b' => Ascii.eqb x y && text_eqb a' b'
  | _, _ => false
  end.

(** [line.startswith(p)] *)
Fixpoint startswith (p s : text) : bool :=
  match p, s with
  | [], _ => true
  | x :: p', y :: s' => Ascii.eqb x y && startswith p' s'
  | _ :: _, [] => false
  end.

(** [p in s] for two strings: [p] occurs in [s] as a contiguous block. *)
Fixpoint occursb (p s : text) : bool :=
  startswith p s ||
  match s with
  | [] => false
  | _ :: s' => occursb p s'
  end.

(** ** [re.sub] for a literal pattern

    Every key of [CATEGORY_REPLACEMENTS] is a regular expression that matches
    exactly one string: the only metacharacters are the escaped brackets and
    parentheses.  No replacement holds a backslash.  For such a pair
    [re.sub(pattern, replacement, content)] scans [content] from the left; at
    a position where the pattern starts it emits the replacement and jumps
    past the match, elsewhere it emits the character and moves one step.
    [sub_from k] is that scan with [k] characters of the current match still
    to jump.  The patterns of the table are non-empty; the empty pattern is
    not modelled. *)

Fixpoint sub_from (pat rep : text) (k : nat) (s : text) : text :=
  match s with
  | [] => []
  | c :: s' =>
      match k with
      | S k' => sub_from pat rep k' s'
      | O => if startswith pat s
             then rep ++ sub_from pat rep (List.length pat - 1) s'
             else c :: sub_from pat rep 0 s'
      end
  end.

Definition re_sub (pat rep content : text) : text := sub_from pat rep 0 content.

(** ** The replacement table *)

Definition TAGS : list string :=
  [ "protein"; "carbs"; "vegetables"; "fruits"; "dairy"; "fats"; "grains";
    "legumes"; "snacks"; "supplements"; "others" ]%string.

(** A string literal of the rewritten source: the characters between two
    double quotes. *)
Definition lit (s : string) : text := DQ :: T s ++ [DQ].

(** The table is written out as in the script, each regular expression given
    as the one string it matches.  A Python dict is iterated in insertion
    order, so the order of the list is the order of application. *)
Definition CATEGORY_REPLACEMENTS : list (text * text) :=
  [ (T "=== " ++ lit "protein", T "=== CATEGORIES.protein");
    (T "=== " ++ lit "carbs", T "=== CATEGORIES.carbs");
    (T "=== " ++ lit "vegetables", T "=== CATEGORIES.vegetables");
    (T "=== " ++ lit "fruits", T "=== CATEGORIES.fruits");
    (T "=== " ++ lit "dairy", T "=== CATEGORIES.dairy");
    (T "=== " ++ lit "fats", T "=== CATEGORIES.fats");
    (T "=== " ++ lit "grains", T "=== CATEGORIES.grains");
    (T "=== " ++ lit "legumes", T "=== CATEGORIES.legumes");
    (T "=== " ++ lit "snacks", T "=== CATEGORIES.snacks");
    (T "=== " ++ lit "supplements", T "=== CATEGORIES.supplements");
    (T "=== " ++ lit "others", T "=== CATEGORIES.others");
    (T "!== " ++ lit "protein", T "!== CATEGORIES.protein");
    (T "!== " ++ lit "carbs", T "!== CATEGORIES.carbs");
    (T "!== " ++ lit "vegetables", T "!== CATEGORIES.vegetables");
    (T "!== " ++ lit "fruits", T "!== CATEGORIES.fruits");
    (T "!== " ++ lit "dairy", T "!== CATEGORIES.dairy");
    (T "!== " ++ lit "fats", T "!== CATEGORIES.fats");
    (T "!== " ++ lit "grains", T "!== CATEGORIES.grains");
    (T "!== " ++ lit "legumes", T "!== CATEGORIES.legumes");
    (T "!== " ++ lit "snacks", T "!== CATEGORIES.snacks");
    (T "!== " ++ lit "supplements", T "!== CATEGORIES.supplements");
    (T "!== " ++ lit "others", T "!== CATEGORIES.others");
    (T "[" ++ lit "protein" ++ T ", " ++
       lit "carbs" ++ T ", " ++
       lit "vegetables" ++ T ", " ++
       lit "fruits" ++ T ", " ++
       lit "dairy" ++ T ", " ++
       lit "fats" ++ T ", " ++
       lit "grains" ++ T ", " ++
       lit "legumes" ++ T ", " ++
       lit "snacks" ++ T ", " ++
       lit "supplements" ++ T ", " ++
       lit "others" ++ T "]",
     T "[CATEGORIES.protein, CATEGORIES.carbs, CATEGORIES.vegetables, CATEGORIES.fruits, CATEGORIES.dairy, CATEGORIES.fats, CATEGORIES.grains, CATEGORIES.legumes, CATEGORIES.snacks, CATEGORIES.supplements, CATEGORIES.others]");
    (T "(" ++ lit "protein" ++ T ")", T "(CATEGORIES.protein)");
    (T "(" ++ lit "carbs" ++ T ")", T "(CATEGORIES.carbs)");
    (T "(" ++ lit "vegetables" ++ T ")", T "(CATEGORIES.vegetables)");
    (T "(" ++ lit "fruits" ++ T ")", T "(CATEGORIES.fruits)");
    (T "(" ++ lit "dairy" ++ T ")", T "(CATEGORIES.dairy)");
    (T "(" ++ lit "fats" ++ T ")", T "(CATEGORIES.fats)");
    (T "(" ++ lit "grains" ++ T ")", T "(CATEGORIES.grains)");
    (T "(" ++ lit "legumes" ++ T ")", T "(CATEGORIES.legumes)");
    (T "(" ++ lit "snacks" ++ T ")", T "(CATEGORIES.snacks)");
    (T "(" ++ lit "supplements" ++ T ")", T "(CATEGORIES.supplements)");
    (T "(" ++ lit "others" ++ T ")", T "(CATEGORIES.others)") ].

(** The loop of [update_file] over the table:
    [for pattern, replacement in CATEGORY_REPLACEMENTS.items():
       content = re.sub(pattern, replacement, content)]. *)
Definition apply_replacements (content : text) : text :=
  fold_left (fun c pr => re_sub (fst pr) (snd pr) c) CATEGORY_REPLACEMENTS content.

(** The rewrite step of the specification: the new content, and whether it
    differs from the original ([content != original]). *)
Definition rewrite (content : text) : text * bool :=
  let content' := apply_replacements content in
  (content', negb (text_eqb content' content)).

(** ** The import statements *)

Definition IMPORT_STATEMENT : text :=
  T "import { CATEGORIES } from " ++ lit "../core/constants/categories" ++ T ";" ++ [NL].
Definition IMPORT_STATEMENT_NESTED : text :=
  T "import { CATEGORIES } from " ++ lit "../../core/constants/categories" ++ T ";" ++ [NL].
Definition IMPORT_STATEMENT_DEEP : text :=
  T "import { CATEGORIES } from " ++ lit "../../../core/constants/categories" ++ T ";" ++ [NL].

(** ** Paths

    [pathlib] is outside the script.  A path is modelled by the two
    observations the script makes of it: [str(filepath)] and
    [Path(filepath).parts], the tuple of its segments. *)
Record filepath := { fp_str : text; fp_parts : list text }.

(** [x in parts] for a tuple of strings: some element equals [x]. *)
Definition mem (x : text) (l : list text) : bool := existsb (text_eqb x) l.

Definition should_skip_file (fp : filepath) : bool :=
  let skip_patterns :=
    [T "node_modules"; T ".git"; T "dist"; T "build"; T "categories.ts"] in
  existsb (fun pattern => occursb pattern (fp_str fp)) skip_patterns.

Definition get_import_statement (fp : filepath) : text :=
  let parts := fp_parts fp in
  if mem (T "tests") parts then IMPORT_STATEMENT_NESTED
  else if mem (T "logic") parts || mem (T "utils") parts || mem (T "export") parts
          || mem (T "premium") parts || mem (T "storage") parts
       then IMPORT_STATEMENT_NESTED
  else if mem (T "components") parts || mem (T "pages") parts
       then IMPORT_STATEMENT_DEEP
  else IMPORT_STATEMENT.

(** ** Lines *)

(** [content.split('\n')]: one piece more than there are newlines. *)
Fixpoint split_nl (s : text) : list text :=
  match s with
  | [] => [[]]
  | c :: s' =>
      if Ascii.eqb c NL then [] :: split_nl s'
      else match split_nl s' with
           | l :: ls => (c :: l) :: ls
           | [] => [[c]]
           end
  end.

(** ['\n'.join(lines)] *)
Fixpoint join_nl (lines : list text) : text :=
  match lines with
  | [] => []
  | l :: ls =>
      match ls with
      | [] => l
      | _ :: _ => l ++ NL :: join_nl ls
      end
  end.

(** The white space [str.rstrip()] removes, within ASCII: tab, line feed,
    vertical tab, form feed, carriage return, the four separators 28..31 and
    the space. *)
Definition is_space (c : ascii) : bool :=
  let n := nat_of_ascii c in
  ((9 <=? n) && (n <=? 13)) || ((28 <=? n) && (n <=? 32)).

Fixpoint rstrip (s : text) : text :=
  match s with
  | [] => []
  | c :: s' =>
      match rstrip s' with
      | [] => if is_space c then [] else [c]
      | r => c :: r
      end
  end.

(** The [for i, line in enumerate(lines)] loop up to its [return]: the index
    of the first line that starts with ["import "], counted from [i]. *)
Fixpoint first_import_line (lines : list text) (i : nat) : option nat :=
  match lines with
  | [] => None
  | line :: rest =>
      if startswith (T "import ") line then Some i
      else first_import_line rest (S i)
  end.

(** [lines.insert(i, x)]; an index past the end appends, as in Python. *)
Definition list_insert (i : nat) (x : text) (lines : list text) : list text :=
  firstn i lines ++ x :: skipn i lines.

Definition add_import_if_needed (content : text) (fp : filepath) : text :=
  if occursb (T "CATEGORIES") content
     && negb (occursb (T "import { CATEGORIES }") content)
  then
    let import_stmt := get_import_statement fp in
    let lines := split_nl content in
    match first_import_line lines 0 with
    | Some i => join_nl (list_insert (i + 1) (rstrip import_stmt) lines)
    | None => import_stmt ++ content
    end
  else content.

(** ** Files, exceptions and output *)

(** What [open], [read] and [write] can raise.  [OSError] and
    [UnicodeDecodeError] derive from [Exception]; [KeyboardInterrupt] does
    not, and [except Exception] lets it through. *)
Inductive exn :=
| OSError (msg : text)
| UnicodeDecodeError (msg : text)
| KeyboardInterrupt.

Definition is_Exception (e : exn) : bool :=
  match e with
  | OSError _ | UnicodeDecodeError _ => true
  | KeyboardInterrupt => false
  end.

(** [str(e)] *)
Definition str_exn (e : exn) : text :=
  match e with
  | OSError msg | UnicodeDecodeError msg => msg
  | KeyboardInterrupt => []
  end.

(** Decimal digits of a count, for the summary line. *)
Definition str_nat (n : nat) : text :=
  T (NilEmpty.string_of_uint (Nat.to_uint n)).

Section FileSystem.

(** The file system is left abstract: a state [world], what reading a file
    gives in a state, and what writing does to it.  A failed write still
    returns the state it leaves behind. *)
Variable world : Type.
Variable read_text : world -> filepath -> text + exn.
Variable write_text : world -> filepath -> text -> world * option exn.

(** A run from a state: the value returned or the exception raised, the
    state afterwards, and the lines printed. *)
Definition M (A : Type) : Type := world -> (A + exn) * world * list text.

Definition ret {A} (a : A) : M A := fun w => (inl a, w, []).

Definition bind {A B} (m : M A) (k : A -> M B) : M B :=
  fun w =>
    match m w with
    | (inl a, w1, out1) =>
        match k a w1 with
        | (r, w2, out2) => (r, w2, out1 ++ out2)
        end
    | (inr e, w1, out1) => (inr e, w1, out1)
    end.

(** [try: m  except Exception as e: h e] *)
Definition try_except {A} (m : M A) (h : exn -> M A) : M A :=
  fun w =>
    match m w with
    | (inl a, w1, out1) => (inl a, w1, out1)
    | (inr e, w1, out1) =>
        if is_Exception e
        then match h e w1 with
             | (r, w2, out2) => (r, w2, out1 ++ out2)
             end
        else (inr e, w1, out1)
    end.

Definition print (line : text) : M unit := fun w => (inl tt, w, [line]).

(** [with open(filepath, 'r', encoding='utf-8') as f: content = f.read()] *)
Definition read_file (fp : filepath) : M text :=
  fun w => (read_text w fp, w, []).

(** [with open(filepath, 'w', encoding='utf-8') as f: f.write(content)] *)
Definition write_file (fp : filepath) (content : text) : M unit :=
  fun w =>
    match write_text w fp content with
    | (w', None) => (inl tt, w', [])
    | (w', Some e) => (inr e, w', [])
    end.

Local Notation "x <- m ;; k" := (bind m (fun x => k))
  (at level 61, m at next level, right associativity).
Local Notation "m ;;; k" := (bind m (fun _ => k))
  (at level 61, right associativity).

(** The body of the [try] returns [True] after a write; when the content is
    unchanged it falls through to the final [return False], as the handler
    does after printing. *)
Definition update_file (fp : filepath) : M bool :=
  try_except
    (content <- read_file fp ;;
     let original := content in
     let content := apply_replacements content in
     if negb (text_eqb content original) then
       let content := add_import_if_needed content fp in
       write_file fp content ;;;
       ret true
     else ret false)
    (fun e =>
       print (T "Error processing " ++ fp_str fp ++ T ": " ++ str_exn e) ;;;
       ret false).

(** One [for filepath in root.rglob(...)] loop of [main]; the files found
    are given as a list, [updated] is the running count. *)
Fixpoint update_all (files : list filepath) (updated : nat) : M nat :=
  match files with
  | [] => ret updated
  | fp :: rest =>
      if should_skip_file fp then update_all rest updated
      else
        b <- update_file fp ;;
        if b then
          print (T "Updated: " ++ fp_str fp) ;;;
          update_all rest (updated + 1)
        else update_all rest updated
  end.

(** The check mark of the summary line, as its three UTF-8 bytes. *)
Definition CHECK_MARK : text := ["226"; "156"; "133"]%char.

Definition main (ts_files tsx_files : list filepath) : M unit :=
  updated <- update_all ts_files 0 ;;
  updated <- update_all tsx_files updated ;;
  print (NL :: CHECK_MARK ++ T " Updated " ++ str_nat updated ++ T " files").

(** An I/O failure on one file: reading it raises [e], or it is read and
    changed by the table and writing it back raises [e].  [w'] is the state
    the failure leaves. *)
Inductive io_failure (w : world) (fp : filepath) (e : exn) (w' : world) : Prop :=
| ReadFails :
    read_text w fp = inr e -> w' = w -> io_failure w fp e w'
| WriteFails (content : text) :
    read_text w fp = inl content ->
    snd (rewrite content) = true ->
    write_text w fp (add_import_if_needed (fst (rewrite content)) fp)
    = (w', Some e) ->
    io_failure w fp e w'.

End FileSystem.

Arguments update_file {world}.
Arguments update_all {world}.
Arguments main {world}.
Arguments io_failure {world}.

(** * Definitions for the statements and the proofs *)

(** [p] occurs in [s]. *)
Definition occurs (p s : text) : Prop := exists a b, s = a ++ p ++ b.

(** Some non-empty end of [x] is a beginning of [y]. *)
Fixpoint borderb (x y : text) : bool :=
  match x with
  | [] => false
  | _ :: x' => startswith x y || borderb x' y
  end.

(** The pattern [q] and the replacement [r] stay clear of each other: neither
    holds the other, and no end of one is a beginning of the other.  Then an
    occurrence of [q] cannot touch an inserted [r]. *)
Definition clear_of (q r : text) : bool :=
  negb (borderb q r) && negb (borderb r q)
  && negb (occursb q r) && negb (occursb r q).

(** The loop of [apply_replacements] over any table. *)
Definition run_table (tbl : list (text * text)) (content : text) : text :=
  fold_left (fun c pr => re_sub (fst pr) (snd pr) c) tbl content.

Definition nonempty (s : text) : bool :=
  match s with [] => false | _ :: _ => true end.

Definition CONSTANT : text := T "CATEGORIES".

(** What the proofs use of the table, each fact checked by evaluation:
    patterns are not empty; every pattern is clear of every replacement;
    every replacement names the constant and no pattern shares a character
    with that name; every pattern holds one of the eleven quoted tags; no
    pattern and no replacement holds a newline. *)
Definition patterns_nonempty (tbl : list (text * text)) : bool :=
  forallb (fun pr => nonempty (fst pr)) tbl.

Definition patterns_clear (pats : list text) (tbl : list (text * text)) : bool :=
  forallb (fun pr => forallb (fun q => clear_of q (snd pr)) pats) tbl.

Definition names_constant (tbl : list (text * text)) : bool :=
  forallb (fun pr => occursb CONSTANT (snd pr)
                     && forallb (fun c => negb (existsb (Ascii.eqb c) (fst pr)))
                                CONSTANT) tbl.

Definition quotes_a_tag (tbl : list (text * text)) : bool :=
  forallb (fun pr => existsb (fun t => occursb (lit t) (fst pr)) TAGS) tbl.

Definition has_char (c : ascii) (s : text) : bool := existsb (Ascii.eqb c) s.

Definition single_line (tbl : list (text * text)) : bool :=
  forallb (fun pr => negb (has_char NL (fst pr)) && negb (has_char NL (snd pr))) tbl.

Definition no_newline (l : text) : Prop := ~ In NL l.

(** The spelling that [add_import_if_needed] looks for. *)
Definition CANONICAL_IMPORT : text := T "import { CATEGORIES }".

Definition IMPORT_KEYWORD : text := T "import ".

Definition is_import_line (l : text) : bool := startswith IMPORT_KEYWORD l.

(** What the proofs use of an import statement: it is one line closed by a
    newline, [rstrip] removes just that newline, and the line holds the
    canonical spelling. *)
Definition import_shape (stmt : text) : Prop :=
  stmt = rstrip stmt ++ [NL]
  /\ no_newline (rstrip stmt)
  /\ occurs CANONICAL_IMPORT (rstrip stmt).

(** The three outcomes of [add_import_if_needed]. *)
Inductive import_outcome (content : text) (fp : filepath) : text -> Prop :=
| Untouched :
    occursb CONSTANT content && negb (occursb CANONICAL_IMPORT content) = false ->
    import_outcome content fp content
| AfterFirstImport (pre : list text) (line : text) (post : list text) :
    occursb CONSTANT content = true ->
    occursb CANONICAL_IMPORT content = false ->
    split_nl content = pre ++ line :: post ->
    Forall (fun l => is_import_line l = false) pre ->
    is_import_line line = true ->
    import_outcome content fp
      (join_nl (pre ++ line :: rstrip (get_import_statement fp) :: post))
| AtTop :
    occursb CONSTANT content = true ->
    occursb CANONICAL_IMPORT content = false ->
    Forall (fun l => is_import_line l = false) (split_nl content) ->
    import_outcome content fp (get_import_statement fp ++ content).

(** The line of scenario A before and after the rewrite. *)
Definition LINE_BEFORE : text :=
  T "if (item.category === " ++ lit "protein" ++ T ") return true;".
Definition LINE_AFTER : text :=
  T "if (item.category === CATEGORIES.protein) return true;".

(** The two families of directory names that [get_import_statement] tests. *)
Definition NESTED_FAMILY : list text :=
  [T "tests"; T "logic"; T "utils"; T "export"; T "premium"; T "storage"].
Definition DEEP_FAMILY : list text := [T "components"; T "pages"].

(** Some segment of the path is in the family. *)
Definition has_segment (family : list text) (fp : filepath) : bool :=
  existsb (fun seg => mem seg (fp_parts fp)) family.

(** Following the specification's words, not the script: the characters of a
    TypeScript identifier, and an occurrence of [p] as a standalone token,
    that is, with no identifier character right before or right after it. *)
Definition is_ident_char (c : ascii) : bool :=
  let n := nat_of_ascii c in
  ((48 <=? n) && (n <=? 57)) || ((65 <=? n) && (n <=? 90))
  || ((97 <=? n) && (n <=? 122)) || (n =? 95) || (n =? 36).

Definition token_at (p s : text) : bool :=
  startswith p s &&
  match skipn (List.length p) s with
  | [] => true
  | c :: _ => negb (is_ident_char c)
  end.

Fixpoint token_occurs_from (after_ident : bool) (p s : text) : bool :=
  (negb after_ident && token_at p s) ||
  match s with
  | [] => false
  | c :: s' => token_occurs_from (is_ident_char c) p s'
  end.

Definition token_occursb (p s : text) : bool := token_occurs_from false p s.

(** Following the specification's words, not the script: the import line put
    directly after the last line that starts with the import keyword, or at
    the top when there is none. *)
Fixpoint insert_after_last_import (stmt : text) (lines : list text)
  : option (list text) :=
  match lines with
  | [] => None
  | l :: rest =>
      match insert_after_last_import stmt rest with
      | Some rest' => Some (l :: rest')
      | None => if is_import_line l then Some (l :: stmt :: rest) else None
      end
  end.

Definition lines_import_after_last (stmt : text) (lines : list text) : list text :=
  match insert_after_last_import stmt lines with
  | Some lines' => lines'
  | None => stmt :: lines
  end.

(** A small file system in memory, to run the script on concrete files: the
    files with their contents, and the paths that cannot be written. *)
Module MemFS.

Record state := { files : list (text * text); locked : list text }.

Fixpoint lookup (path : text) (fs : list (text * text)) : option text :=
  match fs with
  | [] => None
  | (p, c) :: fs' => if text_eqb p path then Some c else lookup path fs'
  end.

Fixpoint store (path content : text) (fs : list (text * text))
  : list (text * text) :=
  match fs with
  | [] => [(path, content)]
  | (p, c) :: fs' =>
      if text_eqb p path then (p, content) :: fs'
      else (p, c) :: store path content fs'
  end.

Definition read_text (w : state) (fp : filepath) : text + exn :=
  match lookup (fp_str fp) (files w) with
  | Some c => inl c
  | None => inr (OSError (T "No such file or directory"))
  end.

Definition write_text (w : state) (fp : filepath) (content : text)
  : state * option exn :=
  if mem (fp_str fp) (locked w)
  then (w, Some (OSError (T "Permission denied")))
  else ({| files := store (fp_str fp) content (files w); locked := locked w |},
        None).

Definition file (path : string) (parts : list string) : filepath :=
  {| fp_str := T path; fp_parts := map T parts |}.

End MemFS.

(** The line [update_file] prints for an exception. *)
Definition error_line (fp : filepath) (e : exn) : text :=
  T "Error processing " ++ fp_str fp ++ T ": " ++ str_exn e.

Definition APP_TS : filepath := MemFS.file "src/app.ts" ["src"; "app.ts"]%string.

Definition TWO_IMPORTS : text :=
  T "import a from " ++ lit "./a" ++ T ";" ++ NL ::
  T "import b from " ++ lit "./b" ++ T ";" ++ NL :: LINE_BEFORE.

Definition TWO_IMPORTS_WRITTEN : text :=
  T "import a from " ++ lit "./a" ++ T ";" ++ NL ::
  T "import { CATEGORIES } from " ++ lit "../core/constants/categories"
    ++ T ";" ++ NL ::
  T "import b from " ++ lit "./b" ++ T ";" ++ NL :: LINE_AFTER.

(** The constant is named, its import is missing, and no literal is left. *)
Definition ALREADY_REWRITTEN : text := T "const a = CATEGORIES.protein;".

Definition one_file (content : text) (locked : list text) : MemFS.state :=
  {| MemFS.files := [(fp_str APP_TS, content)]; MemFS.locked := locked |}.

Definition no_file : MemFS.state := {| MemFS.files := []; MemFS.locked := [] |}.

(** A character that occurs in no pattern of the table. *)
Definition separator (c : ascii) : bool :=
  forallb (fun pr => negb (has_char c (fst pr))) CATEGORY_REPLACEMENTS.

(** Every replacement is longer than its pattern. *)
Definition grows (tbl : list (text * text)) : bool :=
  forallb (fun pr => List.length (fst pr) <? List.length (snd pr)) tbl.

(** No pattern occurs in the line of an import statement. *)
Definition imports_clean (tbl : list (text * text)) : bool :=
  forallb (fun stmt => forallb (fun pr => negb (occursb (fst pr) (rstrip stmt))) tbl)
          [IMPORT_STATEMENT; IMPORT_STATEMENT_NESTED; IMPORT_STATEMENT_DEEP].

(** Some pattern of the table occurs in the text. *)
Definition some_pattern_occurs (content : text) : bool :=
  existsb (fun pr => occursb (fst pr) content) CATEGORY_REPLACEMENTS.

(** The files of a list that [main] does not skip. *)
Definition candidates (files : list filepath) : list filepath :=
  filter (fun fp => negb (should_skip_file fp)) files.

(** The lines [main] prints for updated files, and their number in an
    output. *)
Definition updated_line (fp : filepath) : text := T "Updated: " ++ fp_str fp.

Definition is_updated_line (l : text) : bool := startswith (T "Updated: ") l.

Definition count_updated (out : list text) : nat :=
  List.length (filter is_updated_line out).

(** The last line [main] prints. *)
Definition summary_line (updated : nat) : text :=
  NL :: CHECK_MARK ++ T " Updated " ++ str_nat updated ++ T " files".

(** Two rules that cannot interfere: the patterns are not empty, they stay
    clear of each other, and each stays clear of the replacement of the
    other. *)
Definition independent (a b : text * text) : bool :=
  nonempty (fst a) && nonempty (fst b)
  && clear_of (fst a) (fst b)
  && clear_of (fst a) (snd b) && clear_of (fst b) (snd a).

Definition rule_eqb (a b : text * text) : bool :=
  text_eqb (fst a) (fst b) && text_eqb (snd a) (snd b).

(** Any two different rules of a table are independent. *)
Definition pairwise_independent (tbl : list (text * text)) : bool :=
  forallb (fun a => forallb (fun b => rule_eqb a b || independent a b) tbl) tbl.

(** Every pattern stays clear of the canonical import spelling. *)
Definition canonical_clear (tbl : list (text * text)) : bool :=
  forallb (fun pr => clear_of (fst pr) CANONICAL_IMPORT) tbl.










(** * Properties *)

(** ** Text: equality, prefixes and occurrences *)

Lemma text_eqb_eq (a b : text) : text_eqb a b = true <-> a = b.
Proof.
  revert b; induction a as [|x a IH]; intros [|y b]; simpl; split;
    try congruence; try reflexivity.
  - rewrite andb_true_iff, Ascii.eqb_eq, IH. intros [-> ->]; reflexivity.
  - intros [= -> ->]. rewrite Ascii.eqb_refl. apply IH; reflexivity.
Qed.

Lemma text_eqb_refl (a : text) : text_eqb a a = true.
Proof. apply text_eqb_eq; reflexivity. Qed.

Lemma text_eqb_neq (a b : text) : text_eqb a b = false <-> a <> b.
Proof.
  rewrite <- text_eqb_eq. destruct (text_eqb a b); split; congruence.
Qed.

Lemma startswith_iff (p s : text) :
  startswith p s = true <-> exists t, s = p ++ t.
Proof.
  revert s; induction p as [|x p IH]; intros s; simpl.
  - split; [intros _; exists s; reflexivity | reflexivity].
  - destruct s as [|y s].
    + split; [discriminate | intros [t Ht]; discriminate].
    + rewrite andb_true_iff, Ascii.eqb_eq, IH. split.
      * intros [-> [t ->]]. exists t; reflexivity.
      * intros [t [= -> ->]]. split; [reflexivity | exists t; reflexivity].
Qed.

Lemma startswith_nil (p : text) : p <> [] -> startswith p [] = false.
Proof. destruct p; [congruence | reflexivity]. Qed.

Lemma startswith_app (p t : text) : startswith p (p ++ t) = true.
Proof. apply startswith_iff; exists t; reflexivity. Qed.

Lemma occursb_iff (p s : text) : occursb p s = true <-> occurs p s.
Proof.
  induction s as [|c s IH].
  - simpl. rewrite orb_false_r, startswith_iff. split.
    + intros [t Ht]. exists [], t; exact Ht.
    + intros [a [b H]]. destruct a; [exists b; exact H | discriminate].
  - cbn [occursb]. rewrite orb_true_iff, startswith_iff, IH. split.
    + intros [[t Ht] | [a [b H]]].
      * exists [], t; exact Ht.
      * exists (c :: a), b. rewrite H; reflexivity.
    + intros [[|x a] [b H]].
      * left; exists b; exact H.
      * right. injection H as _ H. exists a, b; exact H.
Qed.

Lemma occursb_false_iff (p s : text) : occursb p s = false <-> ~ occurs p s.
Proof.
  rewrite <- occursb_iff. destruct (occursb p s); split; congruence.
Qed.

Lemma occurs_refl (p : text) : occurs p p.
Proof. exists [], []. rewrite app_nil_r; reflexivity. Qed.

Lemma occurs_trans (p q s : text) : occurs p q -> occurs q s -> occurs p s.
Proof.
  intros [a [b ->]] [c [d ->]]. exists (c ++ a), (b ++ d).
  repeat rewrite <- app_assoc. reflexivity.
Qed.

Lemma occurs_app_l (p u v : text) : occurs p u -> occurs p (u ++ v).
Proof.
  intros [a [b ->]]. exists a, (b ++ v). repeat rewrite <- app_assoc. reflexivity.
Qed.

Lemma occurs_app_r (p u v : text) : occurs p v -> occurs p (u ++ v).
Proof.
  intros [a [b ->]]. exists (u ++ a), b. repeat rewrite <- app_assoc. reflexivity.
Qed.

Lemma occurs_cons (p : text) (c : ascii) (s : text) :
  occurs p s -> occurs p (c :: s).
Proof. apply (occurs_app_r p [c] s). Qed.

(** ** One pass of [re.sub] *)

Lemma sub_from_skipn (pat rep : text) (k : nat) (s : text) :
  sub_from pat rep k s = re_sub pat rep (skipn k s).
Proof.
  revert k; induction s as [|c s IH]; intros [|k]; try reflexivity.
  simpl. apply IH.
Qed.

Lemma re_sub_at_match (pat rep t : text) :
  pat <> [] -> re_sub pat rep (pat ++ t) = rep ++ re_sub pat rep t.
Proof.
  destruct pat as [|c p]; [congruence|]. intros _.
  unfold re_sub at 1. cbn [sub_from app].
  change (c :: p ++ t) with ((c :: p) ++ t). rewrite startswith_app.
  rewrite sub_from_skipn. f_equal. f_equal.
  replace (List.length (c :: p) - 1) with (List.length p) by (simpl; lia).
  rewrite skipn_app, skipn_all, Nat.sub_diag. reflexivity.
Qed.

Section OnePass.

Variables pat rep : text.
Hypothesis pat_nonempty : pat <> [].

Lemma re_sub_nil : re_sub pat rep [] = [].
Proof. reflexivity. Qed.

Lemma re_sub_match (t : text) :
  re_sub pat rep (pat ++ t) = rep ++ re_sub pat rep t.
Proof. apply re_sub_at_match. exact pat_nonempty. Qed.

Lemma re_sub_step (c : ascii) (t : text) :
  startswith pat (c :: t) = false ->
  re_sub pat rep (c :: t) = c :: re_sub pat rep t.
Proof. intros H. unfold re_sub. cbn [sub_from]. rewrite H. reflexivity. Qed.

(** The scan as an induction principle: the text is empty, starts with a
    match, or starts with a character that begins no match. *)
Lemma re_sub_ind (Q : text -> Prop) :
  Q [] ->
  (forall t, Q t -> Q (pat ++ t)) ->
  (forall c t, startswith pat (c :: t) = false -> Q t -> Q (c :: t)) ->
  forall s, Q s.
Proof.
  intros Hnil Hmatch Hstep s.
  remember (List.length s) as n eqn:Hn. revert s Hn.
  induction n as [n IH] using lt_wf_ind. intros s Hn.
  destruct s as [|c t]; [exact Hnil|].
  destruct (startswith pat (c :: t)) eqn:E.
  - apply startswith_iff in E. destruct E as [t' E]. rewrite E.
    apply Hmatch. apply (IH (List.length t')); [|reflexivity].
    subst n. rewrite E, length_app.
    destruct pat; [congruence | simpl; lia].
  - apply Hstep; [exact E|]. apply (IH (List.length t)); [|reflexivity].
    subst n. simpl. lia.
Qed.

(** A text without the pattern is left as it is. *)
Lemma re_sub_absent (s : text) : ~ occurs pat s -> re_sub pat rep s = s.
Proof.
  induction s as [|c s IH]; intros H; [reflexivity|].
  rewrite re_sub_step.
  - f_equal. apply IH. intros Ho. apply H. apply occurs_cons; exact Ho.
  - destruct (startswith pat (c :: s)) eqn:E; [|reflexivity].
    exfalso. apply H. apply startswith_iff in E. destruct E as [t E].
    exists [], t. exact E.
Qed.

(** A pass that changes the text leaves the replacement in it. *)
Lemma re_sub_changed (s : text) :
  re_sub pat rep s <> s -> occurs rep (re_sub pat rep s).
Proof.
  induction s as [|t IH|c t E IH] using re_sub_ind; intros H.
  - exfalso; apply H; reflexivity.
  - rewrite re_sub_match. exists [], (re_sub pat rep t). reflexivity.
  - rewrite re_sub_step in * by exact E.
    apply occurs_cons. apply IH. intros Heq. apply H. f_equal. exact Heq.
Qed.

(** A character that is not in the pattern separates the text: no match
    crosses it. *)
Lemma startswith_sep (a : text) (c : ascii) (b : text) :
  ~ In c pat -> startswith pat (a ++ c :: b) = startswith pat a.
Proof.
  intros Hc. clear pat_nonempty. revert a.
  induction pat as [|x p IH]; intros a.
  - reflexivity.
  - destruct a as [|y a]; simpl.
    + destruct (Ascii.eqb x c) eqn:E; [|reflexivity].
      apply Ascii.eqb_eq in E. exfalso. apply Hc. left; exact E.
    + rewrite IH; [reflexivity|]. intros Hin. apply Hc. right; exact Hin.
Qed.

Lemma re_sub_sep (a : text) (c : ascii) (b : text) :
  ~ In c pat ->
  re_sub pat rep (a ++ c :: b) = re_sub pat rep a ++ c :: re_sub pat rep b.
Proof.
  intros Hc. induction a as [|t IH|x t E IH] using re_sub_ind.
  - simpl. apply re_sub_step.
    change (c :: b) with ([] ++ c :: b).
    rewrite startswith_sep by exact Hc.
    apply startswith_nil. exact pat_nonempty.
  - rewrite <- app_assoc, !re_sub_match, IH, <- app_assoc. reflexivity.
  - change ((x :: t) ++ c :: b) with (x :: (t ++ c :: b)).
    rewrite re_sub_step.
    + rewrite IH, (re_sub_step x t E). reflexivity.
    + change (x :: t ++ c :: b) with ((x :: t) ++ c :: b).
      rewrite startswith_sep by exact Hc. exact E.
Qed.

(** A block of such characters is kept in place. *)
Lemma re_sub_block (x : text) :
  x <> [] -> (forall c, In c x -> ~ In c pat) ->
  forall a b,
    re_sub pat rep (a ++ x ++ b) = re_sub pat rep a ++ x ++ re_sub pat rep b.
Proof.
  induction x as [|c x IH]; [congruence|]. intros _ Hx a b.
  cbn [app]. rewrite re_sub_sep by (apply Hx; left; reflexivity).
  f_equal. f_equal. destruct x as [|d x].
  - reflexivity.
  - apply (IH ltac:(discriminate) (fun c' H => Hx c' (or_intror H)) [] b).
Qed.

Lemma re_sub_keeps (x s : text) :
  x <> [] -> (forall c, In c x -> ~ In c pat) ->
  occurs x s -> occurs x (re_sub pat rep s).
Proof.
  intros Hne Hx [a [b ->]]. rewrite re_sub_block by assumption.
  exists (re_sub pat rep a), (re_sub pat rep b). reflexivity.
Qed.

(** Every character of the result comes from the text or from the
    replacement. *)
Lemma re_sub_chars (c : ascii) (s : text) :
  In c (re_sub pat rep s) -> In c s \/ In c rep.
Proof.
  induction s as [|t IH|x t E IH] using re_sub_ind.
  - intros [].
  - rewrite re_sub_match, !in_app_iff. tauto.
  - rewrite re_sub_step by exact E. simpl. tauto.
Qed.

End OnePass.

(** ** When a replacement cannot complete a pattern *)

Lemma borderb_intro (a l b : text) :
  l <> [] -> borderb (a ++ l) (l ++ b) = true.
Proof.
  intros Hl. induction a as [|c a IH].
  - destruct l as [|c l]; [congruence|].
    cbn [app borderb]. change (c :: l ++ b) with ((c :: l) ++ b).
    rewrite startswith_app. reflexivity.
  - cbn [app borderb]. rewrite IH. apply orb_true_r.
Qed.

Lemma clear_of_app (q r u v : text) :
  clear_of q r = true ->
  ~ occurs q u -> ~ occurs q v -> ~ occurs q (u ++ r ++ v).
Proof.
  unfold clear_of. rewrite !andb_true_iff, !negb_true_iff, !occursb_false_iff.
  intros [[[Bqr Brq] Oqr] Orq] Hu Hv [a [b H]].
  apply app_eq_app in H. destruct H as [l [[-> H] | [-> H]]].
  - (* the occurrence starts in [u] *)
    apply app_eq_app in H. destruct H as [m [[-> H] | [-> _]]].
    + apply app_eq_app in H. destruct H as [n [[-> _] | [-> _]]].
      * destruct m as [|x m].
        -- apply Hu. exists a, []. rewrite !app_nil_r. reflexivity.
        -- rewrite borderb_intro in Bqr; [discriminate | discriminate].
      * apply Orq. exists l, n. reflexivity.
    + apply Hu. exists a, m. reflexivity.
  - (* the occurrence starts at or after the beginning of [r] *)
    apply app_eq_app in H. destruct H as [m [[-> H] | [-> ->]]].
    + apply app_eq_app in H. destruct H as [n [[-> ->] | [-> _]]].
      * destruct m as [|x m].
        -- apply Hv. exists [], b. reflexivity.
        -- rewrite borderb_intro in Brq; [discriminate | discriminate].
      * apply Oqr. exists l, n. reflexivity.
    + apply Hv. exists m, b. reflexivity.
Qed.

Section Clear.

Variables pat rep : text.
Hypothesis pat_nonempty : pat <> [].

(** A pattern absent from the text and clear of the replacement is absent
    from the result. *)
Lemma re_sub_preserves_absent (q : text) :
  clear_of q rep = true ->
  forall s u, ~ occurs q (u ++ s) -> ~ occurs q (u ++ re_sub pat rep s).
Proof.
  intros Hq s. pattern s. apply (re_sub_ind pat pat_nonempty); clear s;
    [intros u H | intros t IH u H | intros c t E IH u H].
  - exact H.
  - rewrite re_sub_match by exact pat_nonempty.
    apply clear_of_app; [exact Hq | |].
    + intros Ho. apply H. apply occurs_app_l. exact Ho.
    + apply (IH []). simpl. intros Ho. apply H.
      apply occurs_app_r, occurs_app_r. exact Ho.
  - rewrite re_sub_step by exact E.
    change (u ++ c :: re_sub pat rep t) with (u ++ [c] ++ re_sub pat rep t).
    rewrite app_assoc. apply IH. rewrite <- app_assoc. exact H.
Qed.

(** The pattern of the pass itself is gone after the pass. *)
Lemma re_sub_removes :
  clear_of pat rep = true ->
  forall s u,
    (forall a b, u ++ s = a ++ pat ++ b -> List.length u <= List.length a) ->
    ~ occurs pat (u ++ re_sub pat rep s).
Proof.
  intros Hq s. pattern s. apply (re_sub_ind pat pat_nonempty); clear s;
    [intros u H | intros t IH u H | intros c t E IH u H].
  - change (re_sub pat rep []) with (@nil ascii).
    intros [a [b Hab]]. specialize (H a b Hab). apply (f_equal (@List.length ascii)) in Hab.
    rewrite !length_app in Hab. simpl in Hab.
    destruct pat; [congruence | simpl in Hab; lia].
  - rewrite re_sub_match by exact pat_nonempty.
    apply clear_of_app; [exact Hq | |].
    + intros [a [b Hab]]. specialize (H a (b ++ pat ++ t)).
      rewrite Hab in H. rewrite <- !app_assoc in H.
      specialize (H eq_refl). rewrite !length_app in H.
      destruct pat; [congruence | simpl in H; lia].
    + apply (IH []). intros a b _. simpl. lia.
  - rewrite re_sub_step by exact E.
    change (u ++ c :: re_sub pat rep t) with (u ++ [c] ++ re_sub pat rep t).
    rewrite app_assoc. apply IH. intros a b Hab.
    rewrite <- app_assoc in Hab. specialize (H a b Hab).
    rewrite length_app. simpl.
    destruct (Nat.eq_dec (List.length u) (List.length a)) as [Heq|Hne]; [|lia].
    exfalso. apply app_eq_app in Hab.
    destruct Hab as [l [[-> Hab] | [-> Hab]]];
      rewrite length_app in Heq;
      (destruct l; [|simpl in Heq; lia]);
      simpl in Hab.
    + rewrite <- Hab, startswith_app in E. discriminate.
    + rewrite Hab, startswith_app in E. discriminate.
Qed.

End Clear.

(** ** The whole table *)

Lemma nonempty_true (s : text) : nonempty s = true -> s <> [].
Proof. destruct s; [discriminate | discriminate]. Qed.

Lemma has_char_iff (c : ascii) (s : text) : has_char c s = true <-> In c s.
Proof.
  unfold has_char. rewrite existsb_exists. split.
  - intros [x [Hx E]]. apply Ascii.eqb_eq in E. subst; exact Hx.
  - intros H. exists c. split; [exact H | apply Ascii.eqb_refl].
Qed.

Lemma has_char_false (c : ascii) (s : text) : has_char c s = false <-> ~ In c s.
Proof.
  rewrite <- has_char_iff. destruct (has_char c s); split; congruence.
Qed.

Lemma table_patterns_nonempty : patterns_nonempty CATEGORY_REPLACEMENTS = true.
Proof. vm_compute. reflexivity. Qed.

Lemma table_patterns_clear :
  patterns_clear (map fst CATEGORY_REPLACEMENTS) CATEGORY_REPLACEMENTS = true.
Proof. vm_compute. reflexivity. Qed.

Lemma table_names_constant : names_constant CATEGORY_REPLACEMENTS = true.
Proof. vm_compute. reflexivity. Qed.

Lemma table_quotes_a_tag : quotes_a_tag CATEGORY_REPLACEMENTS = true.
Proof. vm_compute. reflexivity. Qed.

Lemma table_single_line : single_line CATEGORY_REPLACEMENTS = true.
Proof. vm_compute. reflexivity. Qed.

(** A table none of whose patterns occurs leaves the text as it is. *)
Lemma run_table_absent (tbl : list (text * text)) (c : text) :
  (forall pr, In pr tbl -> ~ occurs (fst pr) c) -> run_table tbl c = c.
Proof.
  induction tbl as [|pr tbl IH]; intros H; [reflexivity|].
  unfold run_table. cbn [fold_left].
  rewrite re_sub_absent by (apply H; left; reflexivity).
  apply IH. intros pr' Hin. apply H. right; exact Hin.
Qed.

(** After the table has run, none of its patterns is left. *)
Lemma run_table_removes (pats : list text) (todo : list (text * text)) :
  patterns_nonempty todo = true ->
  patterns_clear pats todo = true ->
  (forall pr, In pr todo -> In (fst pr) pats) ->
  forall c,
    (forall q, In q pats -> In q (map fst todo) \/ ~ occurs q c) ->
    forall q, In q pats -> ~ occurs q (run_table todo c).
Proof.
  unfold patterns_nonempty, patterns_clear.
  induction todo as [|[p r] todo IH]; intros Hne Hcl Hin c Hc q Hq.
  - destruct (Hc q Hq) as [[] | H]. exact H.
  - cbn [forallb] in Hne, Hcl. apply andb_true_iff in Hne, Hcl.
    destruct Hne as [Hp Hne], Hcl as [Hr Hcl]. cbn [fst snd] in Hp, Hr.
    apply nonempty_true in Hp. rewrite forallb_forall in Hr.
    unfold run_table. cbn [fold_left fst snd].
    apply (IH Hne Hcl (fun pr H => Hin pr (or_intror H))); [|exact Hq].
    intros q' Hq'.
    destruct (list_eq_dec ascii_dec q' p) as [->|Hqp].
    + right. apply (re_sub_removes p r Hp (Hr p Hq') c []). intros a b _; simpl; lia.
    + destruct (Hc q' Hq') as [[E | H] | H].
      * cbn [fst] in E. congruence.
      * left; exact H.
      * right. apply (re_sub_preserves_absent p r Hp q' (Hr q' Hq') c []). exact H.
Qed.

Lemma apply_replacements_removes (content : text) (pr : text * text) :
  In pr CATEGORY_REPLACEMENTS -> ~ occurs (fst pr) (apply_replacements content).
Proof.
  intros Hin.
  apply (run_table_removes (map fst CATEGORY_REPLACEMENTS) CATEGORY_REPLACEMENTS
           table_patterns_nonempty table_patterns_clear).
  - intros pr' H. apply in_map; exact H.
  - intros q Hq. left; exact Hq.
  - apply in_map; exact Hin.
Qed.

(** A table that changes the text leaves the constant's name in it. *)
Lemma run_table_keeps_constant (tbl : list (text * text)) :
  patterns_nonempty tbl = true -> names_constant tbl = true ->
  forall c, occurs CONSTANT c -> occurs CONSTANT (run_table tbl c).
Proof.
  unfold patterns_nonempty, names_constant.
  induction tbl as [|[p r] tbl IH]; intros Hne Hnm c Hc; [exact Hc|].
  cbn [forallb fst snd] in Hne, Hnm. apply andb_true_iff in Hne, Hnm.
  destruct Hne as [Hp Hne], Hnm as [Hr Hnm]. apply nonempty_true in Hp.
  apply andb_true_iff in Hr. destruct Hr as [_ Hr]. rewrite forallb_forall in Hr.
  unfold run_table. cbn [fold_left fst snd]. apply (IH Hne Hnm).
  apply (re_sub_keeps p r Hp); [discriminate | | exact Hc].
  intros x Hx. specialize (Hr x Hx). apply negb_true_iff in Hr.
  apply has_char_false. exact Hr.
Qed.

Lemma run_table_changed (tbl : list (text * text)) :
  patterns_nonempty tbl = true -> names_constant tbl = true ->
  forall c, run_table tbl c = c \/ occurs CONSTANT (run_table tbl c).
Proof.
  induction tbl as [|[p r] tbl IH]; intros Hne Hnm c; [left; reflexivity|].
  pose proof Hne as Hne'. pose proof Hnm as Hnm'.
  unfold patterns_nonempty, names_constant in Hne', Hnm'.
  cbn [forallb fst snd] in Hne', Hnm'. apply andb_true_iff in Hne', Hnm'.
  destruct Hne' as [Hp Hne'], Hnm' as [Hr Hnm']. apply nonempty_true in Hp.
  apply andb_true_iff in Hr. destruct Hr as [Hr _]. apply occursb_iff in Hr.
  unfold run_table. cbn [fold_left fst snd].
  destruct (list_eq_dec ascii_dec (re_sub p r c) c) as [E|NE].
  - rewrite E. apply (IH Hne' Hnm').
  - right. apply (run_table_keeps_constant tbl Hne' Hnm').
    apply (occurs_trans CONSTANT r); [exact Hr|].
    apply (re_sub_changed p r Hp). exact NE.
Qed.

(** ** Lines *)

Lemma split_nl_not_nil (s : text) : split_nl s <> [].
Proof.
  induction s as [|c s IH]; simpl; [discriminate|].
  destruct (Ascii.eqb c NL); [discriminate|].
  destruct (split_nl s); [congruence | discriminate].
Qed.

Lemma split_nl_newline (s : text) : split_nl (NL :: s) = [] :: split_nl s.
Proof. reflexivity. Qed.

Lemma split_nl_other (c : ascii) (s : text) :
  c <> NL ->
  exists l ls, split_nl s = l :: ls /\ split_nl (c :: s) = (c :: l) :: ls.
Proof.
  intros Hc. cbn [split_nl].
  destruct (Ascii.eqb c NL) eqn:E; [apply Ascii.eqb_eq in E; contradiction|].
  destruct (split_nl s) as [|l ls] eqn:Es.
  - contradiction (split_nl_not_nil s).
  - exists l, ls. split; reflexivity.
Qed.

Lemma split_nl_no_newline (s : text) : Forall no_newline (split_nl s).
Proof.
  induction s as [|c s IH].
  - constructor; [intros [] | constructor].
  - destruct (ascii_dec c NL) as [->|Hc].
    + rewrite split_nl_newline. constructor; [intros [] | exact IH].
    + destruct (split_nl_other c s Hc) as [l [ls [E1 E2]]].
      rewrite E1 in IH. rewrite E2. inversion IH as [|? ? Hl Hls]; subst.
      constructor; [|exact Hls]. intros [H|H]; [congruence | exact (Hl H)].
Qed.

Lemma join_nl_cons (l : text) (ls : list text) :
  ls <> [] -> join_nl (l :: ls) = l ++ NL :: join_nl ls.
Proof. destruct ls; [congruence | reflexivity]. Qed.

Lemma join_split (s : text) : join_nl (split_nl s) = s.
Proof.
  induction s as [|c s IH]; [reflexivity|].
  destruct (ascii_dec c NL) as [->|Hc].
  - rewrite split_nl_newline, join_nl_cons by apply split_nl_not_nil.
    rewrite IH. reflexivity.
  - destruct (split_nl_other c s Hc) as [l [ls [E1 E2]]].
    rewrite E2. rewrite E1 in IH. destruct ls as [|l' ls].
    + simpl in *. congruence.
    + rewrite join_nl_cons in IH by discriminate.
      rewrite join_nl_cons by discriminate. cbn [app]. f_equal. exact IH.
Qed.

Lemma split_nl_single (l : text) : no_newline l -> split_nl l = [l].
Proof.
  induction l as [|c l IH]; intros H; [reflexivity|].
  assert (Hc : c <> NL) by (intros ->; apply H; left; reflexivity).
  destruct (split_nl_other c l Hc) as [l0 [ls [E1 E2]]].
  rewrite E2. rewrite IH in E1 by (intros Hin; apply H; right; exact Hin).
  injection E1 as <- <-. reflexivity.
Qed.

Lemma split_nl_line (l rest : text) :
  no_newline l -> split_nl (l ++ NL :: rest) = l :: split_nl rest.
Proof.
  induction l as [|c l IH]; intros H; [reflexivity|].
  assert (Hc : c <> NL) by (intros ->; apply H; left; reflexivity).
  destruct (split_nl_other c (l ++ NL :: rest) Hc) as [l0 [ls [E1 E2]]].
  cbn [app]. rewrite E2. rewrite IH in E1 by (intros Hin; apply H; right; exact Hin).
  injection E1 as <- <-. reflexivity.
Qed.

Lemma split_join (ls : list text) :
  ls <> [] -> Forall no_newline ls -> split_nl (join_nl ls) = ls.
Proof.
  induction ls as [|l ls IH]; [congruence|]. intros _ H.
  inversion H as [|? ? Hl Hls]; subst. destruct ls as [|l' ls].
  - simpl. apply split_nl_single; exact Hl.
  - rewrite join_nl_cons by discriminate. rewrite split_nl_line by exact Hl.
    rewrite IH; [reflexivity | discriminate | exact Hls].
Qed.

Lemma occurs_join (l : text) (ls : list text) :
  In l ls -> occurs l (join_nl ls).
Proof.
  induction ls as [|l0 ls IH]; [intros []|]. intros [->|Hin].
  - destruct ls as [|l' ls]; [apply occurs_refl|].
    rewrite join_nl_cons by discriminate. apply occurs_app_l, occurs_refl.
  - destruct ls as [|l' ls]; [destruct Hin|].
    rewrite join_nl_cons by discriminate.
    apply occurs_app_r, occurs_cons, IH. exact Hin.
Qed.

(** The table works line by line: no pattern and no replacement holds a
    newline. *)
Lemma re_sub_join (pat rep : text) (ls : list text) :
  pat <> [] -> no_newline pat ->
  re_sub pat rep (join_nl ls) = join_nl (map (re_sub pat rep) ls).
Proof.
  intros Hne Hnl. induction ls as [|l ls IH]; [reflexivity|].
  destruct ls as [|l' ls]; [reflexivity|].
  rewrite join_nl_cons by discriminate.
  rewrite re_sub_sep by assumption. rewrite IH.
  reflexivity.
Qed.

Lemma re_sub_no_newline (pat rep l : text) :
  pat <> [] -> no_newline rep -> no_newline l -> no_newline (re_sub pat rep l).
Proof.
  intros Hne Hr Hl Hin. apply re_sub_chars in Hin; [|exact Hne].
  destruct Hin; contradiction.
Qed.

Lemma split_re_sub (pat rep s : text) :
  pat <> [] -> no_newline pat -> no_newline rep ->
  split_nl (re_sub pat rep s) = map (re_sub pat rep) (split_nl s).
Proof.
  intros Hne Hp Hr.
  rewrite <- (join_split s) at 1. rewrite re_sub_join by assumption.
  apply split_join.
  - pose proof (split_nl_not_nil s). destruct (split_nl s); [congruence | discriminate].
  - apply Forall_map. eapply Forall_impl; [|apply split_nl_no_newline].
    intros l Hl. apply re_sub_no_newline; assumption.
Qed.

Lemma split_run_table (tbl : list (text * text)) :
  patterns_nonempty tbl = true -> single_line tbl = true ->
  forall s, split_nl (run_table tbl s) = map (run_table tbl) (split_nl s).
Proof.
  unfold patterns_nonempty, single_line.
  induction tbl as [|[p r] tbl IH]; intros Hne Hsl s.
  - simpl. rewrite map_id. reflexivity.
  - cbn [forallb fst snd] in Hne, Hsl. apply andb_true_iff in Hne, Hsl.
    destruct Hne as [Hp Hne], Hsl as [Hl Hsl]. apply nonempty_true in Hp.
    apply andb_true_iff in Hl. destruct Hl as [Hlp Hlr].
    apply negb_true_iff, has_char_false in Hlp, Hlr.
    unfold run_table. cbn [fold_left fst snd].
    change (fold_left (fun c pr => re_sub (fst pr) (snd pr) c) tbl)
      with (run_table tbl).
    rewrite (IH Hne Hsl), split_re_sub by assumption.
    rewrite map_map. reflexivity.
Qed.

Lemma split_apply_replacements (content : text) :
  split_nl (apply_replacements content)
  = map apply_replacements (split_nl content).
Proof.
  apply (split_run_table CATEGORY_REPLACEMENTS
           table_patterns_nonempty table_single_line).
Qed.

(** ** The import step *)

Lemma get_import_statement_cases (fp : filepath) :
  get_import_statement fp = IMPORT_STATEMENT
  \/ get_import_statement fp = IMPORT_STATEMENT_NESTED
  \/ get_import_statement fp = IMPORT_STATEMENT_DEEP.
Proof.
  unfold get_import_statement.
  destruct (mem (T "tests") (fp_parts fp)); [tauto|].
  destruct (_ || _ || _ || _ || _); [tauto|].
  destruct (_ || _); tauto.
Qed.

Lemma get_import_statement_shape (fp : filepath) :
  import_shape (get_import_statement fp).
Proof.
  unfold import_shape, no_newline.
  rewrite <- has_char_false, <- occursb_iff.
  destruct (get_import_statement_cases fp) as [-> | [-> | ->]];
    repeat split; vm_compute; reflexivity.
Qed.

Lemma first_import_line_some (ls : list text) (i j : nat) :
  first_import_line ls i = Some j ->
  exists pre line post,
    ls = pre ++ line :: post /\ j = i + List.length pre
    /\ is_import_line line = true
    /\ Forall (fun l => is_import_line l = false) pre.
Proof.
  revert i; induction ls as [|l ls IH]; intros i H; [discriminate|].
  cbn [first_import_line] in H.
  destruct (startswith (T "import ") l) eqn:E.
  - injection H as <-. exists [], l, ls. simpl. repeat split; auto; lia.
  - destruct (IH _ H) as [pre [line [post [-> [-> [Hl Hpre]]]]]].
    exists (l :: pre), line, post. simpl. repeat split; auto; lia.
Qed.

Lemma first_import_line_none (ls : list text) (i : nat) :
  first_import_line ls i = None <-> Forall (fun l => is_import_line l = false) ls.
Proof.
  revert i; induction ls as [|l ls IH]; intros i.
  - split; [constructor | reflexivity].
  - cbn [first_import_line]. unfold is_import_line, IMPORT_KEYWORD in *.
    destruct (startswith (T "import ") l) eqn:E.
    + split; [discriminate|]. intros H. inversion H; congruence.
    + rewrite IH. split; [intros H; constructor; assumption|].
      intros H; inversion H; assumption.
Qed.

Lemma first_import_line_found (pre : list text) (line : text) (post : list text)
      (i : nat) :
  Forall (fun l => is_import_line l = false) pre ->
  is_import_line line = true ->
  first_import_line (pre ++ line :: post) i = Some (i + List.length pre).
Proof.
  unfold is_import_line, IMPORT_KEYWORD.
  intros Hpre Hline. revert i. induction Hpre as [|l pre Hl _ IH]; intros i.
  - cbn [app first_import_line]. rewrite Hline. f_equal. simpl. lia.
  - cbn [app first_import_line]. rewrite Hl, IH. f_equal. simpl. lia.
Qed.

Lemma list_insert_after (pre : list text) (line x : text) (post : list text) :
  list_insert (List.length pre + 1) x (pre ++ line :: post)
  = pre ++ line :: x :: post.
Proof.
  unfold list_insert.
  replace (pre ++ line :: post) with ((pre ++ [line]) ++ post)
    by (rewrite <- app_assoc; reflexivity).
  replace (List.length pre + 1) with (List.length (pre ++ [line]))
    by (rewrite length_app; reflexivity).
  rewrite firstn_app, skipn_app, firstn_all, skipn_all, Nat.sub_diag.
  simpl. rewrite app_nil_r, <- app_assoc. reflexivity.
Qed.

Lemma add_import_outcome (content : text) (fp : filepath) :
  import_outcome content fp (add_import_if_needed content fp).
Proof.
  unfold add_import_if_needed.
  change (T "CATEGORIES") with CONSTANT.
  change (T "import { CATEGORIES }") with CANONICAL_IMPORT.
  destruct (occursb CONSTANT content && negb (occursb CANONICAL_IMPORT content))
    eqn:G; [|apply Untouched; exact G].
  apply andb_true_iff in G. destruct G as [G1 G2]. apply negb_true_iff in G2.
  destruct (first_import_line (split_nl content) 0) as [i|] eqn:F.
  - apply first_import_line_some in F.
    destruct F as [pre [line [post [E [-> [Hl Hpre]]]]]].
    rewrite E. rewrite Nat.add_0_l, list_insert_after.
    apply AfterFirstImport; assumption.
  - apply first_import_line_none in F. apply AtTop; assumption.
Qed.

(** The lines of the result in the two outcomes that add the import. *)
Lemma split_after_first_import (content : text) (fp : filepath)
      (pre : list text) (line : text) (post : list text) :
  split_nl content = pre ++ line :: post ->
  split_nl (join_nl (pre ++ line :: rstrip (get_import_statement fp) :: post))
  = pre ++ line :: rstrip (get_import_statement fp) :: post.
Proof.
  intros E. apply split_join.
  - destruct pre; discriminate.
  - pose proof (split_nl_no_newline content) as H. rewrite E in H.
    apply Forall_app in H. destruct H as [Hpre H].
    inversion H as [|? ? Hline Hpost]; subst.
    apply Forall_app. split; [exact Hpre|].
    constructor; [exact Hline|]. constructor; [|exact Hpost].
    apply (get_import_statement_shape fp).
Qed.

Lemma split_at_top (content : text) (fp : filepath) :
  split_nl (get_import_statement fp ++ content)
  = rstrip (get_import_statement fp) :: split_nl content.
Proof.
  destruct (get_import_statement_shape fp) as [E [Hnl _]].
  rewrite E at 1. rewrite <- app_assoc. apply split_nl_line. exact Hnl.
Qed.

(** Whenever the import is added, the result holds the canonical spelling. *)
Lemma add_import_adds (content : text) (fp : filepath) :
  occursb CONSTANT content = true ->
  occursb CANONICAL_IMPORT content = false ->
  occurs CANONICAL_IMPORT (add_import_if_needed content fp).
Proof.
  intros G1 G2. destruct (get_import_statement_shape fp) as [E [_ Hc]].
  destruct (add_import_outcome content fp) as [G | pre line post _ _ _ _ _ | _ _ _].
  - rewrite G1, G2 in G. discriminate.
  - apply (occurs_trans _ (rstrip (get_import_statement fp))); [exact Hc|].
    apply occurs_join. apply in_or_app. right. right. left. reflexivity.
  - apply occurs_app_l. rewrite E. apply occurs_app_l. exact Hc.
Qed.

Lemma add_import_present (content : text) (fp : filepath) :
  occursb CANONICAL_IMPORT content = true ->
  add_import_if_needed content fp = content.
Proof.
  intros H. unfold add_import_if_needed.
  change (T "import { CATEGORIES }") with CANONICAL_IMPORT.
  rewrite H, andb_false_r. reflexivity.
Qed.

Lemma add_import_no_constant (content : text) (fp : filepath) :
  occursb CONSTANT content = false ->
  add_import_if_needed content fp = content.
Proof.
  intros H. unfold add_import_if_needed.
  change (T "CATEGORIES") with CONSTANT. rewrite H. reflexivity.
Qed.

(** The import step drops no line. *)
Lemma add_import_keeps_lines (content : text) (fp : filepath) (l : text) :
  In l (split_nl content) ->
  In l (split_nl (add_import_if_needed content fp)).
Proof.
  intros H.
  destruct (add_import_outcome content fp) as [G | pre line post _ _ E _ _ | _ _ _].
  - exact H.
  - rewrite (split_after_first_import content fp pre line post E).
    rewrite E in H. apply in_app_or in H. apply in_or_app.
    destruct H as [H | [H | H]];
      [left | right; left | right; right; right]; assumption.
  - rewrite split_at_top. right. exact H.
Qed.

(** ** The rewrite on small inputs *)

Example rewrite_not_equal :
  rewrite (T "x !== " ++ lit "dairy" ++ T " && f(" ++ lit "fats" ++ T ")")
  = (T "x !== CATEGORIES.dairy && f(CATEGORIES.fats)", true).
Proof. vm_compute. reflexivity. Qed.

Example rewrite_longer_literal :
  rewrite (T "x === " ++ lit "fruits_extra")
  = (T "x === " ++ lit "fruits_extra", false).
Proof. vm_compute. reflexivity. Qed.

Example rewrite_array :
  rewrite (T "const all = " ++ fst (nth 22 CATEGORY_REPLACEMENTS ([], [])) ++ T ";")
  = (T "const all = [CATEGORIES.protein, CATEGORIES.carbs, CATEGORIES.vegetables, CATEGORIES.fruits, CATEGORIES.dairy, CATEGORIES.fats, CATEGORIES.grains, CATEGORIES.legumes, CATEGORIES.snacks, CATEGORIES.supplements, CATEGORIES.others];",
     true).
Proof. vm_compute. reflexivity. Qed.

Example import_added_at_top :
  add_import_if_needed LINE_AFTER APP_TS
  = T "import { CATEGORIES } from " ++ lit "../core/constants/categories"
    ++ T ";" ++ NL :: LINE_AFTER.
Proof. vm_compute. reflexivity. Qed.

(** * The properties of the specification *)

(** C1.  The rewrite step is idempotent: applying the table to the output of
    a first application changes nothing; the second pass reports
    [changed = false] and returns the same text. *)
Theorem rewrite_idempotent (content : text) :
  rewrite (fst (rewrite content)) = (fst (rewrite content), false).
Proof.
  unfold rewrite. cbn [fst].
  assert (E : apply_replacements (apply_replacements content)
              = apply_replacements content).
  { apply run_table_absent. intros pr Hin.
    apply apply_replacements_removes. exact Hin. }
  rewrite E, text_eqb_refl. reflexivity.
Qed.

(** C7.  If the rewrite step reports [changed = true], the resulting content
    holds the constant identifier [CATEGORIES]. *)
Theorem changed_names_constant (content : text) :
  snd (rewrite content) = true ->
  occursb (T "CATEGORIES") (fst (rewrite content)) = true.
Proof.
  unfold rewrite. cbn [fst snd]. intros H.
  apply negb_true_iff, text_eqb_neq in H. apply occursb_iff.
  destruct (run_table_changed CATEGORY_REPLACEMENTS
              table_patterns_nonempty table_names_constant content) as [E|Ho].
  - contradiction.
  - exact Ho.
Qed.

Lemma changed_names_constant_witness :
  snd (rewrite LINE_BEFORE) = true
  /\ occursb (T "CATEGORIES") (fst (rewrite LINE_BEFORE)) = true.
Proof.
  split; [vm_compute; reflexivity|].
  apply (changed_names_constant LINE_BEFORE). vm_compute. reflexivity.
Defined.

Lemma quoted_tag_in_pattern (pr : text * text) :
  In pr CATEGORY_REPLACEMENTS ->
  exists tag, In tag TAGS /\ occurs (lit tag) (fst pr).
Proof.
  intros Hin. pose proof table_quotes_a_tag as H. unfold quotes_a_tag in H.
  rewrite forallb_forall in H. specialize (H pr Hin).
  apply existsb_exists in H. destruct H as [tag [Ht Ho]].
  exists tag. split; [exact Ht | apply occursb_iff; exact Ho].
Qed.

(** A content in which no tag stands between two quote marks is left as it
    is. *)
Lemma no_quoted_tag_no_change (content : text) :
  Forall (fun tag => occursb (lit tag) content = false) TAGS ->
  rewrite content = (content, false).
Proof.
  unfold rewrite. intros H. rewrite Forall_forall in H.
  assert (E : apply_replacements content = content).
  { apply run_table_absent. intros pr Hin Ho.
    destruct (quoted_tag_in_pattern pr Hin) as [tag [Ht Hq]].
    specialize (H tag Ht). apply occursb_false_iff in H.
    apply H. apply (occurs_trans _ (fst pr)); assumption. }
  rewrite E, text_eqb_refl. reflexivity.
Qed.

Lemma mem_iff (x : text) (l : list text) : mem x l = true <-> In x l.
Proof.
  unfold mem. rewrite existsb_exists. split.
  - intros [y [Hy E]]. apply text_eqb_eq in E. subst; exact Hy.
  - intros H. exists x. split; [exact H | apply text_eqb_refl].
Qed.

(** [has_segment] says that some segment of the path is, exactly, one of the
    names of the family. *)
Lemma has_segment_iff (family : list text) (fp : filepath) :
  has_segment family fp = true
  <-> exists seg, In seg (fp_parts fp) /\ In seg family.
Proof.
  unfold has_segment. rewrite existsb_exists. split.
  - intros [seg [Hf Hm]]. apply mem_iff in Hm. exists seg; tauto.
  - intros [seg [Hp Hf]]. exists seg. rewrite mem_iff. tauto.
Qed.

(** C5.  The classification of a path: a segment of the family of "tests"
    gives the two-levels-up import, whatever else is in the path; otherwise a
    segment "components" or "pages" gives the three-levels-up import;
    otherwise the import is one level up. *)
Theorem import_path_classification (fp : filepath) :
  (has_segment NESTED_FAMILY fp = true ->
   get_import_statement fp = IMPORT_STATEMENT_NESTED)
  /\ (has_segment NESTED_FAMILY fp = false -> has_segment DEEP_FAMILY fp = true ->
      get_import_statement fp = IMPORT_STATEMENT_DEEP)
  /\ (has_segment NESTED_FAMILY fp = false -> has_segment DEEP_FAMILY fp = false ->
      get_import_statement fp = IMPORT_STATEMENT).
Proof.
  unfold has_segment, NESTED_FAMILY, DEEP_FAMILY, get_import_statement.
  cbn [existsb].
  destruct (mem (T "tests") (fp_parts fp)), (mem (T "logic") (fp_parts fp)),
    (mem (T "utils") (fp_parts fp)), (mem (T "export") (fp_parts fp)),
    (mem (T "premium") (fp_parts fp)), (mem (T "storage") (fp_parts fp)),
    (mem (T "components") (fp_parts fp)), (mem (T "pages") (fp_parts fp));
    cbn [orb]; repeat split; intros; try reflexivity; discriminate.
Qed.

Lemma import_path_classification_witness :
  get_import_statement
    (MemFS.file "src/components/tests/List.test.tsx"
                ["src"; "components"; "tests"; "List.test.tsx"]%string)
  = IMPORT_STATEMENT_NESTED
  /\ get_import_statement
       (MemFS.file "src/app/pages/Home.tsx" ["src"; "app"; "pages"; "Home.tsx"]%string)
     = IMPORT_STATEMENT_DEEP
  /\ get_import_statement
       (MemFS.file "src/testsuite/main.ts" ["src"; "testsuite"; "main.ts"]%string)
     = IMPORT_STATEMENT.
Proof.
  split; [|split].
  - apply (proj1 (import_path_classification _)). vm_compute. reflexivity.
  - apply (proj1 (proj2 (import_path_classification _))); vm_compute; reflexivity.
  - apply (proj2 (proj2 (import_path_classification _))); vm_compute; reflexivity.
Defined.

(** C3.  Import insertion is idempotent and adds no duplicate: a second call
    returns what the first returned, and a content that holds the canonical
    import spelling is returned unchanged. *)
Theorem add_import_idempotent (content : text) (fp : filepath) :
  add_import_if_needed (add_import_if_needed content fp) fp
  = add_import_if_needed content fp
  /\ (occursb (T "import { CATEGORIES }") content = true ->
      add_import_if_needed content fp = content).
Proof.
  split; [|apply add_import_present].
  destruct (occursb CONSTANT content) eqn:G1.
  - destruct (occursb CANONICAL_IMPORT content) eqn:G2.
    + rewrite !(add_import_present content fp G2). reflexivity.
    + apply add_import_present. apply occursb_iff.
      apply add_import_adds; assumption.
  - rewrite !(add_import_no_constant content fp G1). reflexivity.
Qed.

Lemma add_import_idempotent_witness :
  let content := T "import { CATEGORIES } from " ++ lit "../x" ++ T ";"
                 ++ NL :: LINE_AFTER in
  let fp := MemFS.file "src/app.ts" ["src"; "app.ts"]%string in
  occursb (T "import { CATEGORIES }") content = true
  /\ add_import_if_needed content fp = content.
Proof.
  split; [vm_compute; reflexivity|].
  apply (proj2 (add_import_idempotent _ _)). vm_compute. reflexivity.
Defined.

(** C10.  The import step returns the content unchanged, or a content whose
    lines are the original lines, each kept as it was and in order, with the
    one line of the resolved import statement put in at one place. *)
Theorem add_import_frame (content : text) (fp : filepath) :
  add_import_if_needed content fp = content
  \/ exists pre post,
       split_nl content = pre ++ post
       /\ split_nl (add_import_if_needed content fp)
          = pre ++ rstrip (get_import_statement fp) :: post.
Proof.
  destruct (add_import_outcome content fp) as [G | pre line post _ _ E _ _ | _ _ _].
  - left; reflexivity.
  - right. exists (pre ++ [line]), post. rewrite <- !app_assoc. split; [exact E|].
    apply (split_after_first_import content); exact E.
  - right. exists [], (split_nl content). split; [reflexivity|].
    apply split_at_top.
Qed.

Lemma add_import_after_first (content : text) (fp : filepath)
      (pre : list text) (line : text) (post : list text) :
  occursb CONSTANT content = true ->
  occursb CANONICAL_IMPORT content = false ->
  split_nl content = pre ++ line :: post ->
  Forall (fun l => is_import_line l = false) pre ->
  is_import_line line = true ->
  add_import_if_needed content fp
  = join_nl (pre ++ line :: rstrip (get_import_statement fp) :: post).
Proof.
  intros G1 G2 E Hpre Hline. unfold add_import_if_needed.
  change (T "CATEGORIES") with CONSTANT.
  change (T "import { CATEGORIES }") with CANONICAL_IMPORT.
  rewrite G1, G2, E. cbn [negb andb].
  rewrite first_import_line_found by assumption.
  rewrite Nat.add_0_l, list_insert_after. reflexivity.
Qed.

Lemma add_import_at_top (content : text) (fp : filepath) :
  occursb CONSTANT content = true ->
  occursb CANONICAL_IMPORT content = false ->
  Forall (fun l => is_import_line l = false) (split_nl content) ->
  add_import_if_needed content fp = get_import_statement fp ++ content.
Proof.
  intros G1 G2 H. unfold add_import_if_needed.
  change (T "CATEGORIES") with CONSTANT.
  change (T "import { CATEGORIES }") with CANONICAL_IMPORT.
  rewrite G1, G2. cbn [negb andb].
  apply first_import_line_none with (i := 0) in H. rewrite H. reflexivity.
Qed.

Lemma occurs_line (l s : text) : In l (split_nl s) -> occurs l s.
Proof. intros H. rewrite <- (join_split s). apply occurs_join. exact H. Qed.

(** A content with the line of scenario A is changed by the table, and the
    line comes out rewritten. *)
Lemma scenario_line_rewritten (content : text) :
  In LINE_BEFORE (split_nl content) ->
  snd (rewrite content) = true
  /\ In LINE_AFTER (split_nl (fst (rewrite content))).
Proof.
  intros Hin. unfold rewrite. cbn [fst snd]. split.
  - apply negb_true_iff, text_eqb_neq. intros E.
    apply (apply_replacements_removes content
             (T "=== " ++ lit "protein", T "=== CATEGORIES.protein")).
    + left; reflexivity.
    + rewrite E. apply (occurs_trans _ LINE_BEFORE).
      * apply occursb_iff. vm_compute. reflexivity.
      * apply occurs_line. exact Hin.
  - rewrite split_apply_replacements.
    change LINE_AFTER with (apply_replacements LINE_BEFORE).
    apply in_map. exact Hin.
Qed.

(** C6 as stated fails: the script looks for the name of the constant
    anywhere in the text.  Here the name is only part of the identifier
    [MY_CATEGORIES_LIST], and the import is added all the same. *)
Lemma import_for_substring_counterexample :
  let content := T "const MY_CATEGORIES_LIST = [];" in
  let fp := MemFS.file "src/app.ts" ["src"; "app.ts"]%string in
  ~ (token_occursb CONSTANT content = false ->
     add_import_if_needed content fp = content).
Proof.
  intros content fp H.
  assert (E : add_import_if_needed content fp = content)
    by (apply H; vm_compute; reflexivity).
  vm_compute in E. discriminate E.
Qed.

(** C6, amended.  The import step leaves the content as it is exactly when
    the name of the constant occurs nowhere in it, as a token or as part of
    a longer word, or the canonical import spelling is already there. *)
Theorem add_import_only_on_occurrence (content : text) (fp : filepath) :
  add_import_if_needed content fp = content
  <-> occursb (T "CATEGORIES") content = false
      \/ occursb (T "import { CATEGORIES }") content = true.
Proof.
  change (T "CATEGORIES") with CONSTANT.
  change (T "import { CATEGORIES }") with CANONICAL_IMPORT.
  split.
  - intros E. destruct (occursb CONSTANT content) eqn:G1; [|left; reflexivity].
    destruct (occursb CANONICAL_IMPORT content) eqn:G2; [right; reflexivity|].
    exfalso. pose proof (add_import_adds content fp G1 G2) as Ho.
    rewrite E in Ho. apply occursb_iff in Ho. congruence.
  - intros [G | G]; [apply add_import_no_constant | apply add_import_present];
      exact G.
Qed.

(** C2 as stated fails where a file has more than one import line: the new
    import goes after the first of them, not after the last. *)
Lemma scenario_A_last_import_counterexample :
  let import_a := T "import a from " ++ lit "./a" ++ T ";" in
  let import_b := T "import b from " ++ lit "./b" ++ T ";" in
  let content := import_a ++ NL :: import_b ++ NL :: LINE_BEFORE in
  let fp := MemFS.file "src/app.ts" ["src"; "app.ts"]%string in
  let rewritten := fst (rewrite content) in
  let written := add_import_if_needed rewritten fp in
  let stmt := rstrip (get_import_statement fp) in
  In LINE_BEFORE (split_nl content)
  /\ split_nl written = [import_a; stmt; import_b; LINE_AFTER]
  /\ split_nl written <> lines_import_after_last stmt (split_nl rewritten).
Proof.
  cbv zeta. split; [|split].
  - vm_compute. right. right. left. reflexivity.
  - vm_compute. reflexivity.
  - vm_compute. discriminate.
Qed.

(** ** [update_file] on a file system *)

Section FileSystemFacts.

Variable world : Type.
Variable read_text : world -> filepath -> text + exn.
Variable write_text : world -> filepath -> text -> world * option exn.

Lemma update_file_read_error (w : world) (fp : filepath) (e : exn) :
  read_text w fp = inr e -> is_Exception e = true ->
  update_file read_text write_text fp w = (inl false, w, [error_line fp e]).
Proof.
  intros Hr He. unfold update_file, try_except, bind, read_file.
  rewrite Hr, He. reflexivity.
Qed.

Lemma update_file_written (w w' : world) (fp : filepath) (content : text) :
  read_text w fp = inl content -> snd (rewrite content) = true ->
  write_text w fp (add_import_if_needed (fst (rewrite content)) fp) = (w', None) ->
  update_file read_text write_text fp w = (inl true, w', []).
Proof.
  unfold rewrite. cbn [fst snd]. intros Hr Hc Hw.
  unfold update_file, try_except, bind, read_file, write_file.
  rewrite Hr, Hc, Hw. reflexivity.
Qed.

Lemma update_file_write_error (w w' : world) (fp : filepath) (content : text)
      (e : exn) :
  read_text w fp = inl content -> snd (rewrite content) = true ->
  write_text w fp (add_import_if_needed (fst (rewrite content)) fp) = (w', Some e) ->
  is_Exception e = true ->
  update_file read_text write_text fp w = (inl false, w', [error_line fp e]).
Proof.
  unfold rewrite. cbn [fst snd]. intros Hr Hc Hw He.
  unfold update_file, try_except, bind, read_file, write_file.
  rewrite Hr, Hc, Hw, He. reflexivity.
Qed.

(** C2, amended.  A file with the line
    [if (item.category === "protein") return true;] is rewritten: the line
    comes out as [if (item.category === CATEGORIES.protein) return true;],
    and when the rewritten content does not yet hold the canonical import,
    the import line is put directly after the first line that starts with
    ["import "], or at the very top when no line does. *)
Theorem scenario_A (w w' : world) (fp : filepath) (content : text) :
  read_text w fp = inl content ->
  In LINE_BEFORE (split_nl content) ->
  write_text w fp (add_import_if_needed (fst (rewrite content)) fp) = (w', None) ->
  let rewritten := fst (rewrite content) in
  let written := add_import_if_needed rewritten fp in
  let stmt := rstrip (get_import_statement fp) in
  update_file read_text write_text fp w = (inl true, w', [])
  /\ In LINE_AFTER (split_nl written)
  /\ (occursb CANONICAL_IMPORT rewritten = false ->
      (forall pre line post,
         split_nl rewritten = pre ++ line :: post ->
         Forall (fun l => is_import_line l = false) pre ->
         is_import_line line = true ->
         split_nl written = pre ++ line :: stmt :: post)
      /\ (Forall (fun l => is_import_line l = false) (split_nl rewritten) ->
          split_nl written = stmt :: split_nl rewritten)).
Proof.
  intros Hr Hin Hw rewritten written stmt.
  destruct (scenario_line_rewritten content Hin) as [Hc Hafter].
  fold rewritten in Hafter.
  assert (G1 : occursb CONSTANT rewritten = true).
  { apply occursb_iff. apply (occurs_trans _ LINE_AFTER).
    - apply occursb_iff. vm_compute. reflexivity.
    - apply occurs_line. exact Hafter. }
  split; [exact (update_file_written w w' fp content Hr Hc Hw)|]. split.
  - apply add_import_keeps_lines. exact Hafter.
  - intros G2. split.
    + intros pre line post E Hpre Hline. unfold written, stmt.
      rewrite (add_import_after_first rewritten fp pre line post) by assumption.
      apply (split_after_first_import rewritten). exact E.
    + intros Hnone. unfold written, stmt.
      rewrite add_import_at_top by assumption. apply split_at_top.
Qed.

(** C8.  A file whose content the table leaves unchanged is not written:
    [update_file] returns [False], prints nothing and leaves the file system
    as it was, so that no import is added, whether or not the content names
    the constant. *)
Theorem unchanged_file_untouched (w : world) (fp : filepath) (content : text) :
  read_text w fp = inl content ->
  snd (rewrite content) = false ->
  update_file read_text write_text fp w = (inl false, w, []).
Proof.
  unfold rewrite. cbn [snd]. intros Hr Hc.
  unfold update_file, try_except, bind, read_file.
  rewrite Hr, Hc. reflexivity.
Qed.

(** C9.  An I/O failure on one file is caught in [update_file]: it prints the
    error line with the path and the cause and returns [False]; no exception
    leaves it, and the loop of [main] goes on with the remaining files from
    the state the failure left, the count unchanged. *)
Theorem io_failure_is_caught (w w' : world) (fp : filepath) (e : exn) :
  io_failure read_text write_text w fp e w' ->
  is_Exception e = true ->
  update_file read_text write_text fp w = (inl false, w', [error_line fp e])
  /\ forall rest updated,
       should_skip_file fp = false ->
       update_all read_text write_text (fp :: rest) updated w
       = (let '(r, w2, out) := update_all read_text write_text rest updated w' in
          (r, w2, error_line fp e :: out)).
Proof.
  intros Hf He.
  assert (E : update_file read_text write_text fp w
              = (inl false, w', [error_line fp e])).
  { destruct Hf as [Hr -> | content Hr Hc Hw].
    - apply update_file_read_error; assumption.
    - apply (update_file_write_error w w' fp content); assumption. }
  split; [exact E|]. intros rest updated Hs.
  cbn [update_all]. rewrite Hs. unfold bind at 1. rewrite E.
  destruct (update_all read_text write_text rest updated w') as [[r w2] out].
  reflexivity.
Qed.

End FileSystemFacts.

(** ** The theorems about files, on concrete files *)

Lemma scenario_A_witness :
  update_file MemFS.read_text MemFS.write_text APP_TS (one_file TWO_IMPORTS [])
  = (inl true, one_file TWO_IMPORTS_WRITTEN [], [])
  /\ In LINE_AFTER
       (split_nl (add_import_if_needed (fst (rewrite TWO_IMPORTS)) APP_TS)).
Proof.
  destruct (scenario_A MemFS.state MemFS.read_text MemFS.write_text
              (one_file TWO_IMPORTS []) (one_file TWO_IMPORTS_WRITTEN [])
              APP_TS TWO_IMPORTS) as [H1 [H2 _]].
  - vm_compute. reflexivity.
  - vm_compute. right. right. left. reflexivity.
  - vm_compute. reflexivity.
  - split; [exact H1 | exact H2].
Defined.

Lemma unchanged_file_untouched_witness :
  occursb CONSTANT ALREADY_REWRITTEN = true
  /\ occursb CANONICAL_IMPORT ALREADY_REWRITTEN = false
  /\ update_file MemFS.read_text MemFS.write_text APP_TS
       (one_file ALREADY_REWRITTEN [])
     = (inl false, one_file ALREADY_REWRITTEN [], []).
Proof.
  split; [vm_compute; reflexivity|]. split; [vm_compute; reflexivity|].
  apply (unchanged_file_untouched MemFS.state MemFS.read_text MemFS.write_text
           (one_file ALREADY_REWRITTEN []) APP_TS ALREADY_REWRITTEN).
  - vm_compute. reflexivity.
  - vm_compute. reflexivity.
Defined.

Lemma io_failure_is_caught_witness :
  update_file MemFS.read_text MemFS.write_text APP_TS no_file
  = (inl false, no_file,
     [T "Error processing src/app.ts: No such file or directory"])
  /\ update_file MemFS.read_text MemFS.write_text APP_TS
       (one_file TWO_IMPORTS [fp_str APP_TS])
     = (inl false, one_file TWO_IMPORTS [fp_str APP_TS],
        [T "Error processing src/app.ts: Permission denied"]).
Proof.
  split.
  - apply (io_failure_is_caught MemFS.state MemFS.read_text MemFS.write_text
             no_file no_file APP_TS (OSError (T "No such file or directory"))).
    + apply ReadFails; reflexivity.
    + reflexivity.
  - apply (io_failure_is_caught MemFS.state MemFS.read_text MemFS.write_text
             (one_file TWO_IMPORTS [fp_str APP_TS])
             (one_file TWO_IMPORTS [fp_str APP_TS])
             APP_TS (OSError (T "Permission denied"))).
    + apply WriteFails with (content := TWO_IMPORTS); vm_compute; reflexivity.
    + reflexivity.
Defined.

(** * Further properties of the script *)

(** ** The rewrite *)

Lemma table_grows : grows CATEGORY_REPLACEMENTS = true.
Proof. vm_compute. reflexivity. Qed.

Lemma table_imports_clean : imports_clean CATEGORY_REPLACEMENTS = true.
Proof. vm_compute. reflexivity. Qed.

Lemma some_pattern_occurs_false (content : text) :
  some_pattern_occurs content = false ->
  forall pr, In pr CATEGORY_REPLACEMENTS -> ~ occurs (fst pr) content.
Proof.
  intros H pr Hin Ho. apply occursb_iff in Ho.
  assert (X : some_pattern_occurs content = true)
    by (apply existsb_exists; exists pr; split; assumption).
  congruence.
Qed.

(** X1.  The rewrite reports a change exactly when one of the patterns of
    the table occurs in the content. *)
Theorem rewrite_changed_iff_pattern (content : text) :
  snd (rewrite content) = some_pattern_occurs content.
Proof.
  unfold rewrite. cbn [snd].
  destruct (some_pattern_occurs content) eqn:E.
  - apply negb_true_iff, text_eqb_neq. intros Heq.
    apply existsb_exists in E. destruct E as [pr [Hin Ho]].
    apply occursb_iff in Ho.
    apply (apply_replacements_removes content pr Hin).
    rewrite Heq. exact Ho.
  - apply negb_false_iff, text_eqb_eq. apply run_table_absent.
    apply some_pattern_occurs_false. exact E.
Qed.

(** X2.  After the rewrite none of the patterns of the table is left in the
    content. *)
Theorem rewrite_leaves_no_pattern (content : text) :
  some_pattern_occurs (fst (rewrite content)) = false.
Proof.
  unfold rewrite. cbn [fst].
  destruct (some_pattern_occurs (apply_replacements content)) eqn:E;
    [|reflexivity].
  apply existsb_exists in E. destruct E as [pr [Hin Ho]].
  apply occursb_iff in Ho.
  contradiction (apply_replacements_removes content pr Hin).
Qed.

Lemma run_table_sep (tbl : list (text * text)) (c : ascii) :
  patterns_nonempty tbl = true ->
  forallb (fun pr => negb (has_char c (fst pr))) tbl = true ->
  forall a b,
    run_table tbl (a ++ c :: b) = run_table tbl a ++ c :: run_table tbl b.
Proof.
  unfold patterns_nonempty.
  induction tbl as [|[p r] tbl IH]; intros Hne Hc a b; [reflexivity|].
  cbn [forallb fst snd] in Hne, Hc. apply andb_true_iff in Hne, Hc.
  destruct Hne as [Hp Hne], Hc as [Hcp Hc]. apply nonempty_true in Hp.
  apply negb_true_iff, has_char_false in Hcp.
  unfold run_table. cbn [fold_left fst snd].
  rewrite (re_sub_sep p r Hp a c b Hcp). apply (IH Hne Hc).
Qed.

(** X3.  The rewrite works piece by piece: a character that is in no pattern
    (a newline, a semicolon, a dot, a brace, ...) cuts the content in two
    parts that are rewritten independently. *)
Theorem rewrite_splits_at_separator (c : ascii) (a b : text) :
  separator c = true ->
  apply_replacements (a ++ c :: b)
  = apply_replacements a ++ c :: apply_replacements b.
Proof.
  intros Hc.
  apply (run_table_sep CATEGORY_REPLACEMENTS c table_patterns_nonempty Hc).
Qed.

Lemma rewrite_splits_at_separator_witness :
  separator ";" = true
  /\ apply_replacements
       ((T "a === " ++ lit "dairy") ++ ";"%char :: (T "f(" ++ lit "fats" ++ T ")"))
     = T "a === CATEGORIES.dairy;f(CATEGORIES.fats)".
Proof.
  split; [vm_compute; reflexivity|].
  rewrite (rewrite_splits_at_separator ";" (T "a === " ++ lit "dairy")
             (T "f(" ++ lit "fats" ++ T ")")) by (vm_compute; reflexivity).
  vm_compute. reflexivity.
Defined.

Lemma re_sub_length (pat rep s : text) :
  pat <> [] -> List.length pat < List.length rep ->
  List.length s <= List.length (re_sub pat rep s)
  /\ (re_sub pat rep s <> s -> List.length s < List.length (re_sub pat rep s)).
Proof.
  intros Hne Hlen. pattern s. apply (re_sub_ind pat Hne); clear s.
  - split; [simpl; lia | intros H; exfalso; apply H; reflexivity].
  - intros t [IH _]. rewrite (re_sub_match pat rep Hne), !length_app. lia.
  - intros c t E [IH1 IH2]. rewrite (re_sub_step pat rep c t E). simpl. split.
    + lia.
    + intros H. apply Nat.succ_lt_mono in IH2; [exact IH2|].
      intros Heq. apply H. f_equal. exact Heq.
Qed.

Lemma run_table_length (tbl : list (text * text)) :
  patterns_nonempty tbl = true -> grows tbl = true ->
  forall s,
    List.length s <= List.length (run_table tbl s)
    /\ (run_table tbl s <> s -> List.length s < List.length (run_table tbl s)).
Proof.
  unfold patterns_nonempty, grows.
  induction tbl as [|[p r] tbl IH]; intros Hne Hg s.
  - split; [simpl; lia | intros H; exfalso; apply H; reflexivity].
  - cbn [forallb fst snd] in Hne, Hg. apply andb_true_iff in Hne, Hg.
    destruct Hne as [Hp Hne], Hg as [Hpr Hg]. apply nonempty_true in Hp.
    apply Nat.ltb_lt in Hpr.
    unfold run_table. cbn [fold_left fst snd].
    change (fold_left (fun c pr => re_sub (fst pr) (snd pr) c) tbl)
      with (run_table tbl).
    destruct (re_sub_length p r s Hp Hpr) as [L1 L2].
    destruct (IH Hne Hg (re_sub p r s)) as [M1 M2].
    split; [lia|]. intros H.
    destruct (list_eq_dec ascii_dec (re_sub p r s) s) as [E|NE].
    + rewrite E in *. apply M2. exact H.
    + specialize (L2 NE). lia.
Qed.

(** X4.  The rewrite never makes the content shorter, and it makes it longer
    exactly when it changes it. *)
Theorem rewrite_never_shrinks (content : text) :
  List.length content <= List.length (fst (rewrite content))
  /\ (snd (rewrite content) = true
      <-> List.length content < List.length (fst (rewrite content))).
Proof.
  unfold rewrite. cbn [fst snd].
  destruct (run_table_length CATEGORY_REPLACEMENTS
              table_patterns_nonempty table_grows content) as [L1 L2].
  split; [exact L1|]. rewrite negb_true_iff, text_eqb_neq. split.
  - exact L2.
  - intros Hlt Heq. rewrite Heq in Hlt. lia.
Qed.

(** ** What is written to a file *)

Lemma occurs_sep (p a : text) (c : ascii) (b : text) :
  ~ In c p -> occurs p (a ++ c :: b) -> occurs p a \/ occurs p b.
Proof.
  intros Hc [x [y H]]. apply app_eq_app in H.
  destruct H as [l [[-> H] | [-> H]]].
  - (* the occurrence starts in [a] *)
    apply app_eq_app in H. destruct H as [m [[-> H] | [-> _]]].
    + destruct m as [|d m].
      * left. exists x, []. rewrite !app_nil_r. reflexivity.
      * injection H as Hcd _. subst d. exfalso. apply Hc.
        apply in_or_app. right. left. reflexivity.
    + left. exists x, m. reflexivity.
  - (* the occurrence starts at [c] or after it *)
    destruct l as [|d l].
    + destruct p as [|d p].
      * left. exists a, []. rewrite app_nil_r. reflexivity.
      * injection H as Hcd _. subst d. exfalso. apply Hc. left. reflexivity.
    + injection H as _ ->. right. exists l, y. reflexivity.
Qed.

Lemma occurs_in_line (p s : text) :
  no_newline p -> occurs p s -> exists l, In l (split_nl s) /\ occurs p l.
Proof.
  intros Hp. rewrite <- (join_split s) at 1.
  pose proof (split_nl_not_nil s) as Hne.
  induction (split_nl s) as [|l ls IH]; [congruence|]. intros Ho.
  destruct ls as [|l' ls].
  - exists l. split; [left; reflexivity | exact Ho].
  - rewrite join_nl_cons in Ho by discriminate.
    apply occurs_sep in Ho; [|exact Hp]. destruct Ho as [Ho | Ho].
    + exists l. split; [left; reflexivity | exact Ho].
    + destruct (IH ltac:(discriminate) Ho) as [l0 [Hin Hl0]].
      exists l0. split; [right; exact Hin | exact Hl0].
Qed.

Lemma add_import_line_cases (content : text) (fp : filepath) (l : text) :
  In l (split_nl (add_import_if_needed content fp)) ->
  In l (split_nl content) \/ l = rstrip (get_import_statement fp).
Proof.
  destruct (add_import_outcome content fp) as [G | pre line post _ _ E _ _ | _ _ _].
  - intros H. left; exact H.
  - rewrite (split_after_first_import content fp pre line post E), E.
    intros H. apply in_app_or in H. destruct H as [H | [H | [H | H]]].
    + left. apply in_or_app. left; exact H.
    + left. apply in_or_app. right. left; exact H.
    + right. symmetry; exact H.
    + left. apply in_or_app. right. right; exact H.
  - rewrite split_at_top. intros [H | H]; [right; symmetry; exact H | left; exact H].
Qed.

Lemma import_line_clean (fp : filepath) (pr : text * text) :
  In pr CATEGORY_REPLACEMENTS ->
  ~ occurs (fst pr) (rstrip (get_import_statement fp)).
Proof.
  intros Hin. apply occursb_false_iff.
  pose proof table_imports_clean as H. unfold imports_clean in H.
  rewrite forallb_forall in H.
  assert (Hs : In (get_import_statement fp)
                 [IMPORT_STATEMENT; IMPORT_STATEMENT_NESTED; IMPORT_STATEMENT_DEEP]).
  { destruct (get_import_statement_cases fp) as [-> | [-> | ->]];
      simpl; tauto. }
  specialize (H _ Hs). rewrite forallb_forall in H.
  apply negb_true_iff. exact (H pr Hin).
Qed.

Lemma pattern_no_newline (pr : text * text) :
  In pr CATEGORY_REPLACEMENTS -> no_newline (fst pr).
Proof.
  intros Hin. pose proof table_single_line as H. unfold single_line in H.
  rewrite forallb_forall in H. specialize (H pr Hin).
  apply andb_true_iff in H. destruct H as [H _].
  apply negb_true_iff, has_char_false in H. exact H.
Qed.

(** No pattern is left in what [update_file] writes. *)
Lemma written_has_no_pattern (content : text) (fp : filepath) (pr : text * text) :
  In pr CATEGORY_REPLACEMENTS ->
  ~ occurs (fst pr) (add_import_if_needed (apply_replacements content) fp).
Proof.
  intros Hin Ho.
  apply occurs_in_line in Ho; [|apply pattern_no_newline; exact Hin].
  destruct Ho as [l [Hl Ho]].
  apply add_import_line_cases in Hl. destruct Hl as [Hl | ->].
  - apply (apply_replacements_removes content pr Hin).
    apply (occurs_trans _ l); [exact Ho | apply occurs_line; exact Hl].
  - exact (import_line_clean fp pr Hin Ho).
Qed.

Lemma add_import_twice (content : text) (fp : filepath) :
  add_import_if_needed (add_import_if_needed content fp) fp
  = add_import_if_needed content fp.
Proof.
  destruct (occursb CONSTANT content) eqn:G1.
  - destruct (occursb CANONICAL_IMPORT content) eqn:G2.
    + rewrite !(add_import_present content fp G2). reflexivity.
    + apply add_import_present. apply occursb_iff.
      apply add_import_adds; assumption.
  - rewrite !(add_import_no_constant content fp G1). reflexivity.
Qed.

(** X5.  What [update_file] writes is a fixed point of both steps: the table
    changes nothing in it and the import step adds nothing to it. *)
Theorem written_content_is_final (content : text) (fp : filepath) :
  let written := add_import_if_needed (fst (rewrite content)) fp in
  rewrite written = (written, false)
  /\ add_import_if_needed written fp = written.
Proof.
  cbv zeta. unfold rewrite. cbn [fst]. split.
  - assert (E : apply_replacements
                  (add_import_if_needed (apply_replacements content) fp)
                = add_import_if_needed (apply_replacements content) fp).
    { apply run_table_absent. intros pr Hin.
      apply written_has_no_pattern. exact Hin. }
    rewrite E, text_eqb_refl. reflexivity.
  - apply add_import_twice.
Qed.

(** X6.  Whenever the rewrite changes a content, what is written holds the
    canonical import of the constant. *)
Theorem written_content_has_import (content : text) (fp : filepath) :
  snd (rewrite content) = true ->
  occursb CANONICAL_IMPORT (add_import_if_needed (fst (rewrite content)) fp)
  = true.
Proof.
  unfold rewrite. cbn [fst snd]. intros H.
  apply negb_true_iff, text_eqb_neq in H.
  assert (G1 : occursb CONSTANT (apply_replacements content) = true).
  { apply occursb_iff.
    destruct (run_table_changed CATEGORY_REPLACEMENTS
                table_patterns_nonempty table_names_constant content) as [E|Ho];
      [contradiction | exact Ho]. }
  destruct (occursb CANONICAL_IMPORT (apply_replacements content)) eqn:G2.
  - rewrite (add_import_present _ fp G2). exact G2.
  - apply occursb_iff. apply add_import_adds; assumption.
Qed.

Lemma written_content_has_import_witness :
  snd (rewrite TWO_IMPORTS) = true
  /\ occursb CANONICAL_IMPORT
       (add_import_if_needed (fst (rewrite TWO_IMPORTS)) APP_TS) = true.
Proof.
  split; [vm_compute; reflexivity|].
  apply (written_content_has_import TWO_IMPORTS APP_TS). vm_compute. reflexivity.
Defined.

(** ** Paths *)

Lemma mem_same_segments (x : text) (l1 l2 : list text) :
  (forall seg, In seg l1 <-> In seg l2) -> mem x l1 = mem x l2.
Proof.
  intros H. destruct (mem x l1) eqn:E1, (mem x l2) eqn:E2; try reflexivity.
  - apply mem_iff, H, mem_iff in E1. congruence.
  - apply mem_iff, H, mem_iff in E2. congruence.
Qed.

(** X7.  The import statement depends only on which segments a path has:
    their order, their number and the file name play no part. *)
Theorem import_statement_by_segment_set (fp1 fp2 : filepath) :
  (forall seg, In seg (fp_parts fp1) <-> In seg (fp_parts fp2)) ->
  get_import_statement fp1 = get_import_statement fp2.
Proof.
  intros H. unfold get_import_statement.
  rewrite !(fun x => mem_same_segments x _ _ H). reflexivity.
Qed.

Lemma import_statement_by_segment_set_witness :
  get_import_statement
    (MemFS.file "src/tests/a.ts" ["src"; "tests"; "a.ts"]%string)
  = get_import_statement
      (MemFS.file "tests/src/tests/a.ts" ["tests"; "src"; "tests"; "a.ts"]%string).
Proof.
  apply import_statement_by_segment_set. intros seg. simpl. tauto.
Defined.

(** X8.  Skipping goes by the text of the path: when a path is skipped, so is
    every path whose text contains it, such as the files below a skipped
    directory. *)
Theorem should_skip_file_extends (fp fp' : filepath) :
  should_skip_file fp = true ->
  occurs (fp_str fp) (fp_str fp') ->
  should_skip_file fp' = true.
Proof.
  unfold should_skip_file. intros H Ho.
  apply existsb_exists in H. destruct H as [pattern [Hin Hp]].
  apply existsb_exists. exists pattern. split; [exact Hin|].
  apply occursb_iff. apply (occurs_trans _ (fp_str fp)); [|exact Ho].
  apply occursb_iff. exact Hp.
Qed.

Lemma should_skip_file_extends_witness :
  should_skip_file
    (MemFS.file "src/build/gen/api.ts" ["src"; "build"; "gen"; "api.ts"]%string)
  = true.
Proof.
  apply (should_skip_file_extends
           (MemFS.file "src/build" ["src"; "build"]%string)).
  - vm_compute. reflexivity.
  - exists [], (T "/gen/api.ts"). reflexivity.
Defined.

(** ** One file and the whole run *)

Lemma count_updated_app (out1 out2 : list text) :
  count_updated (out1 ++ out2) = count_updated out1 + count_updated out2.
Proof. unfold count_updated. rewrite filter_app, length_app. reflexivity. Qed.

Lemma error_line_not_updated (fp : filepath) (e : exn) :
  is_updated_line (error_line fp e) = false.
Proof. reflexivity. Qed.

Lemma updated_line_is_updated (fp : filepath) :
  is_updated_line (updated_line fp) = true.
Proof. apply startswith_app. Qed.

Section WholeRun.

Variable world : Type.
Variable read_text : world -> filepath -> text + exn.
Variable write_text : world -> filepath -> text -> world * option exn.

(** X9.  [update_file] returns [True] exactly when the file was read, the
    table changed its content and the new content, import included, was
    written without error; nothing is printed then. *)
Theorem update_file_true_iff (w w' : world) (fp : filepath) (out : list text) :
  update_file read_text write_text fp w = (inl true, w', out)
  <-> exists content,
        read_text w fp = inl content
        /\ snd (rewrite content) = true
        /\ write_text w fp (add_import_if_needed (fst (rewrite content)) fp)
           = (w', None)
        /\ out = [].
Proof.
  split.
  - unfold update_file, try_except, bind, read_file, write_file, ret, print.
    unfold rewrite. cbn [fst snd].
    destruct (read_text w fp) as [content|e] eqn:Hr.
    + destruct (negb (text_eqb (apply_replacements content) content)) eqn:Hc.
      * destruct (write_text w fp
                    (add_import_if_needed (apply_replacements content) fp))
          as [w1 [e|]] eqn:Hw.
        -- destruct (is_Exception e); discriminate.
        -- intros [= <- <-]. exists content. rewrite Hc. auto.
      * discriminate.
    + destruct (is_Exception e); discriminate.
  - intros [content [Hr [Hc [Hw ->]]]].
    exact (update_file_written world read_text write_text w w' fp content Hr Hc Hw).
Qed.

(** X10.  Running the script a second time changes nothing: when a file has
    been updated and reads back as written, [update_file] returns [False] on
    it, prints nothing and leaves the file system as it is. *)
Theorem second_run_changes_nothing (w w' : world) (fp : filepath) (content : text) :
  read_text w fp = inl content ->
  snd (rewrite content) = true ->
  write_text w fp (add_import_if_needed (fst (rewrite content)) fp) = (w', None) ->
  read_text w' fp = inl (add_import_if_needed (fst (rewrite content)) fp) ->
  update_file read_text write_text fp w = (inl true, w', [])
  /\ update_file read_text write_text fp w' = (inl false, w', []).
Proof.
  intros Hr Hc Hw Hr'. split.
  - exact (update_file_written world read_text write_text w w' fp content Hr Hc Hw).
  - unfold update_file, try_except, bind, read_file. rewrite Hr'.
    unfold rewrite. cbn [fst].
    assert (E : apply_replacements
                  (add_import_if_needed (apply_replacements content) fp)
                = add_import_if_needed (apply_replacements content) fp).
    { apply run_table_absent. intros pr Hin.
      apply written_has_no_pattern. exact Hin. }
    rewrite E, text_eqb_refl. reflexivity.
Qed.

Lemma update_all_candidates (files : list filepath) :
  forall updated w,
    update_all read_text write_text files updated w
    = update_all read_text write_text (candidates files) updated w.
Proof.
  induction files as [|fp rest IH]; intros updated w; [reflexivity|].
  cbn [update_all candidates filter].
  destruct (should_skip_file fp) eqn:Hs; cbn [negb].
  - apply IH.
  - cbn [update_all]. rewrite Hs. unfold bind.
    destruct (update_file read_text write_text fp w) as [[[b|e] w1] out1];
      [|reflexivity].
    destruct b.
    + unfold print. cbv beta iota. rewrite (IH (updated + 1) w1). reflexivity.
    + rewrite (IH updated w1). reflexivity.
Qed.

(** X11.  Skipped files play no part in a run: [main] on two lists of files
    does what it does on the files of the lists that are not skipped, so a
    skipped file is never read, written, printed or counted. *)
Theorem main_ignores_skipped (ts_files tsx_files : list filepath) (w : world) :
  main read_text write_text ts_files tsx_files w
  = main read_text write_text (candidates ts_files) (candidates tsx_files) w.
Proof.
  unfold main, bind.
  rewrite (update_all_candidates ts_files 0 w).
  destruct (update_all read_text write_text (candidates ts_files) 0 w)
    as [[[n1|e] w1] out1]; [|reflexivity].
  rewrite (update_all_candidates tsx_files n1 w1). reflexivity.
Qed.

(** The file operations raise nothing but exceptions of class [Exception]. *)
Hypothesis read_raises_exceptions :
  forall w fp e, read_text w fp = inr e -> is_Exception e = true.
Hypothesis write_raises_exceptions :
  forall w fp content w' e,
    write_text w fp content = (w', Some e) -> is_Exception e = true.

Lemma update_file_total (fp : filepath) (w : world) :
  exists b w1 out1,
    update_file read_text write_text fp w = (inl b, w1, out1)
    /\ count_updated out1 = 0.
Proof.
  unfold update_file, try_except, bind, read_file, write_file, ret, print.
  destruct (read_text w fp) as [content|e] eqn:Hr.
  - destruct (negb (text_eqb (apply_replacements content) content)).
    + destruct (write_text w fp
                  (add_import_if_needed (apply_replacements content) fp))
        as [w1 [e|]] eqn:Hw.
      * rewrite (write_raises_exceptions _ _ _ _ _ Hw).
        exists false, w1, [error_line fp e]. split; reflexivity.
      * exists true, w1, []. split; reflexivity.
    + exists false, w, []. split; reflexivity.
  - rewrite (read_raises_exceptions _ _ _ Hr).
    exists false, w, [error_line fp e]. split; reflexivity.
Qed.

Lemma update_all_total (files : list filepath) :
  forall updated w,
  exists m w' out,
    update_all read_text write_text files updated w = (inl m, w', out)
    /\ m = updated + count_updated out
    /\ count_updated out <= List.length (candidates files).
Proof.
  induction files as [|fp rest IH]; intros updated w.
  - exists updated, w, []. cbn. repeat split; lia.
  - cbn [update_all candidates filter].
    destruct (should_skip_file fp) eqn:Hs; cbn [negb]; [apply IH|].
    unfold bind.
    destruct (update_file_total fp w) as [b [w1 [out1 [E C1]]]]. rewrite E.
    destruct b.
    + unfold print.
      destruct (IH (updated + 1) w1) as [m [w' [out [E' [Hm Hc]]]]].
      rewrite E'. exists m, w', (out1 ++ updated_line fp :: out).
      split; [reflexivity|].
      rewrite count_updated_app, C1.
      change (updated_line fp :: out) with ([updated_line fp] ++ out).
      rewrite count_updated_app.
      assert (C2 : count_updated [updated_line fp] = 1)
        by (unfold count_updated; cbn [filter];
            rewrite updated_line_is_updated; reflexivity).
      rewrite C2. unfold candidates in *. cbn [List.length]. split; lia.
    + destruct (IH updated w1) as [m [w' [out [E' [Hm Hc]]]]].
      rewrite E'. exists m, w', (out1 ++ out). split; [reflexivity|].
      rewrite count_updated_app, C1. unfold candidates in *.
      cbn [List.length]. split; lia.
Qed.

(** X12.  When the file operations raise only exceptions of class
    [Exception], [main] always runs to its end: it returns normally, and the
    last line it prints is the summary, whose count is the number of
    ["Updated: "] lines printed before it, at most one for each file that is
    not skipped. *)
Theorem main_completes (ts_files tsx_files : list filepath) (w : world) :
  exists w' out,
    main read_text write_text ts_files tsx_files w
    = (inl tt, w', out ++ [summary_line (count_updated out)])
    /\ count_updated out
       <= List.length (candidates ts_files) + List.length (candidates tsx_files).
Proof.
  unfold main, bind, print.
  destruct (update_all_total ts_files 0 w) as [n1 [w1 [out1 [E1 [H1 C1]]]]].
  rewrite E1.
  destruct (update_all_total tsx_files n1 w1) as [n2 [w2 [out2 [E2 [H2 C2]]]]].
  rewrite E2. exists w2, (out1 ++ out2). split.
  - rewrite count_updated_app, <- app_assoc.
    replace (count_updated out1 + count_updated out2) with n2 by lia.
    reflexivity.
  - rewrite count_updated_app. lia.
Qed.

End WholeRun.

Section Interrupt.

Variable world : Type.
Variable read_text : world -> filepath -> text + exn.
Variable write_text : world -> filepath -> text -> world * option exn.

(** X13.  An exception that is not of class [Exception], such as an
    interrupt, is not caught: raised while a file is read, it leaves
    [update_file] and ends the loop of [main] at that file, with no line
    printed for it. *)
Theorem interrupt_not_caught (w : world) (fp : filepath) (e : exn) :
  is_Exception e = false ->
  read_text w fp = inr e ->
  update_file read_text write_text fp w = (inr e, w, [])
  /\ forall rest updated,
       should_skip_file fp = false ->
       update_all read_text write_text (fp :: rest) updated w = (inr e, w, []).
Proof.
  intros He Hr.
  assert (E : update_file read_text write_text fp w = (inr e, w, [])).
  { unfold update_file, try_except, bind, read_file. rewrite Hr, He.
    reflexivity. }
  split; [exact E|]. intros rest updated Hs.
  cbn [update_all]. rewrite Hs. unfold bind. rewrite E. reflexivity.
Qed.

End Interrupt.

(** ** The run on concrete files *)

Lemma memfs_read_raises_exceptions (w : MemFS.state) (fp : filepath) (e : exn) :
  MemFS.read_text w fp = inr e -> is_Exception e = true.
Proof.
  unfold MemFS.read_text. destruct (MemFS.lookup (fp_str fp) (MemFS.files w)).
  - discriminate.
  - intros [= <-]. reflexivity.
Qed.

Lemma memfs_write_raises_exceptions
      (w : MemFS.state) (fp : filepath) (content : text) (w' : MemFS.state)
      (e : exn) :
  MemFS.write_text w fp content = (w', Some e) -> is_Exception e = true.
Proof.
  unfold MemFS.write_text. destruct (mem (fp_str fp) (MemFS.locked w)).
  - intros [= _ <-]. reflexivity.
  - discriminate.
Qed.

Lemma second_run_changes_nothing_witness :
  update_file MemFS.read_text MemFS.write_text APP_TS (one_file TWO_IMPORTS [])
  = (inl true, one_file TWO_IMPORTS_WRITTEN [], [])
  /\ update_file MemFS.read_text MemFS.write_text APP_TS
       (one_file TWO_IMPORTS_WRITTEN [])
     = (inl false, one_file TWO_IMPORTS_WRITTEN [], []).
Proof.
  apply (second_run_changes_nothing MemFS.state MemFS.read_text MemFS.write_text
           (one_file TWO_IMPORTS []) (one_file TWO_IMPORTS_WRITTEN [])
           APP_TS TWO_IMPORTS); vm_compute; reflexivity.
Defined.

Lemma main_completes_witness :
  exists w' out,
    main MemFS.read_text MemFS.write_text
      [APP_TS; MemFS.file "src/gone.ts" ["src"; "gone.ts"]%string]
      [MemFS.file "dist/app.tsx" ["dist"; "app.tsx"]%string]
      (one_file TWO_IMPORTS [])
    = (inl tt, w', out ++ [summary_line (count_updated out)])
    /\ count_updated out <= 2 + 0.
Proof.
  apply (main_completes MemFS.state MemFS.read_text MemFS.write_text
           memfs_read_raises_exceptions memfs_write_raises_exceptions).
Defined.

Lemma interrupt_not_caught_witness :
  update_file (fun (_ : unit) (_ : filepath) => inr KeyboardInterrupt)
              (fun (w : unit) (_ : filepath) (_ : text) => (w, None))
              APP_TS tt
  = (inr KeyboardInterrupt, tt, []).
Proof.
  apply (interrupt_not_caught unit
           (fun (_ : unit) (_ : filepath) => inr KeyboardInterrupt)
           (fun (w : unit) (_ : filepath) (_ : text) => (w, None))
           tt APP_TS KeyboardInterrupt); reflexivity.
Defined.

(** ** The order of the rules *)

Lemma table_pairwise_independent :
  pairwise_independent CATEGORY_REPLACEMENTS = true.
Proof. vm_compute. reflexivity. Qed.

Lemma startswith_app_cases (p u x : text) :
  startswith p (u ++ x) = true ->
  startswith p u = true \/ startswith u p = true.
Proof.
  revert u; induction p as [|a p IH]; intros u H; [left; reflexivity|].
  destruct u as [|c u]; [right; reflexivity|].
  cbn [app startswith] in *. apply andb_true_iff in H. destruct H as [Hac H].
  rewrite Hac. rewrite Ascii.eqb_sym, Hac. cbn [andb]. apply IH. exact H.
Qed.

Lemma startswith_prefix (p u x : text) :
  startswith p u = true -> startswith p (u ++ x) = true.
Proof.
  intros H. apply startswith_iff in H. destruct H as [t ->].
  rewrite <- app_assoc. apply startswith_app.
Qed.

(** A pattern that cannot start inside [u] is looked for after [u]. *)
Lemma re_sub_through (pat rep u : text) :
  pat <> [] -> borderb u pat = false -> occursb pat u = false ->
  forall x, re_sub pat rep (u ++ x) = u ++ re_sub pat rep x.
Proof.
  intros Hne. induction u as [|c u IH]; intros Hb Ho x; [reflexivity|].
  cbn [borderb] in Hb. apply orb_false_iff in Hb. destruct Hb as [Hb1 Hb2].
  cbn [occursb] in Ho. apply orb_false_iff in Ho. destruct Ho as [Ho1 Ho2].
  cbn [app]. rewrite re_sub_step.
  - rewrite (IH Hb2 Ho2). reflexivity.
  - destruct (startswith pat (c :: u ++ x)) eqn:E; [|reflexivity].
    change (c :: u ++ x) with ((c :: u) ++ x) in E.
    apply startswith_app_cases in E. destruct E; congruence.
Qed.

(** A pattern that is clear of a replacement and starts in [u ++ r ++ y]
    lies within [u]. *)
Lemma startswith_before_replacement (p u r y : text) :
  borderb p r = false -> occursb r p = false ->
  startswith p (u ++ r ++ y) = true -> startswith p u = true.
Proof.
  intros Hb Ho H. apply startswith_app_cases in H as Hc.
  destruct Hc as [Hc | Hc]; [exact Hc|].
  apply startswith_iff in Hc. destruct Hc as [m ->].
  apply startswith_iff in H. destruct H as [z H].
  rewrite <- app_assoc in H. apply app_inv_head in H.
  apply app_eq_app in H. destruct H as [l [[-> _] | [-> _]]].
  - destruct m as [|d m].
    + rewrite app_nil_r. apply startswith_iff. exists []. rewrite app_nil_r.
      reflexivity.
    + rewrite (borderb_intro u (d :: m) l) in Hb by discriminate. discriminate.
  - exfalso. apply occursb_false_iff in Ho. apply Ho. exists u, l. reflexivity.
Qed.

(** Replacing another pattern creates no new start of [p2]. *)
Lemma startswith_after_sub (p1 r1 p2 : text) :
  p1 <> [] -> borderb p2 r1 = false -> occursb r1 p2 = false ->
  forall t u,
    startswith p2 (u ++ re_sub p1 r1 t) = true -> startswith p2 (u ++ t) = true.
Proof.
  intros Hne Hb Ho t. pattern t. apply (re_sub_ind p1 Hne); clear t.
  - intros u H. exact H.
  - intros t _ u H. rewrite (re_sub_match p1 r1 Hne) in H.
    apply startswith_prefix.
    apply (startswith_before_replacement p2 u r1 (re_sub p1 r1 t) Hb Ho H).
  - intros c t E IH u H. rewrite (re_sub_step p1 r1 c t E) in H.
    change (u ++ c :: re_sub p1 r1 t) with (u ++ [c] ++ re_sub p1 r1 t) in H.
    rewrite app_assoc in H. apply IH in H. rewrite <- app_assoc in H. exact H.
Qed.

Lemma clear_of_parts (q r : text) :
  clear_of q r = true ->
  borderb q r = false /\ borderb r q = false
  /\ occursb q r = false /\ occursb r q = false.
Proof.
  unfold clear_of. rewrite !andb_true_iff, !negb_true_iff. tauto.
Qed.

(** Two independent rules can be applied in either order. *)
Lemma re_sub_commute (a b : text * text) :
  independent a b = true ->
  forall s,
    re_sub (fst a) (snd a) (re_sub (fst b) (snd b) s)
    = re_sub (fst b) (snd b) (re_sub (fst a) (snd a) s).
Proof.
  destruct a as [p1 r1], b as [p2 r2]. unfold independent. cbn [fst snd].
  rewrite !andb_true_iff. intros [[[[N1 N2] C12] C1r2] C2r1].
  apply nonempty_true in N1, N2.
  apply clear_of_parts in C12, C1r2, C2r1.
  destruct C12 as [B12 [B21 [O12 O21]]].
  destruct C1r2 as [B1r2 [Br21 [O1r2 Or21]]].
  destruct C2r1 as [B2r1 [Br12 [O2r1 Or12]]].
  intros s. remember (List.length s) as n eqn:Hn. revert s Hn.
  induction n as [n IH] using lt_wf_ind. intros s Hn.
  destruct s as [|c t]; [reflexivity|].
  destruct (startswith p1 (c :: t)) eqn:E1.
  - (* a match of the first pattern *)
    apply startswith_iff in E1. destruct E1 as [t' E1]. rewrite E1.
    rewrite (re_sub_through p2 r2 p1 N2 B12 O21 t').
    rewrite !(re_sub_at_match p1 r1 _ N1).
    rewrite (re_sub_through p2 r2 r1 N2 Br12 O2r1).
    f_equal. apply (IH (List.length t')); [|reflexivity].
    subst n. rewrite E1, length_app. destruct p1; [congruence | simpl; lia].
  - destruct (startswith p2 (c :: t)) eqn:E2.
    + (* a match of the second pattern *)
      apply startswith_iff in E2. destruct E2 as [t' E2]. rewrite E2.
      rewrite (re_sub_through p1 r1 p2 N1 B21 O12 t').
      rewrite !(re_sub_at_match p2 r2 _ N2).
      rewrite (re_sub_through p1 r1 r2 N1 Br21 O1r2).
      f_equal. apply (IH (List.length t')); [|reflexivity].
      subst n. rewrite E2, length_app. destruct p2; [congruence | simpl; lia].
    + (* no match at the first character *)
      rewrite (re_sub_step p1 r1 c t E1), (re_sub_step p2 r2 c t E2).
      rewrite !re_sub_step.
      * f_equal. apply (IH (List.length t)); [|reflexivity].
        subst n. simpl. lia.
      * destruct (startswith p2 (c :: re_sub p1 r1 t)) eqn:E; [|reflexivity].
        apply (startswith_after_sub p1 r1 p2 N1 B2r1 Or12 t [c]) in E.
        simpl in E. congruence.
      * destruct (startswith p1 (c :: re_sub p2 r2 t)) eqn:E; [|reflexivity].
        apply (startswith_after_sub p2 r2 p1 N2 B1r2 Or21 t [c]) in E.
        simpl in E. congruence.
Qed.

Lemma rule_eqb_eq (a b : text * text) : rule_eqb a b = true -> a = b.
Proof.
  destruct a, b. unfold rule_eqb. cbn [fst snd].
  rewrite andb_true_iff, !text_eqb_eq. intros [-> ->]. reflexivity.
Qed.

Lemma run_table_permutation (tbl tbl' : list (text * text)) :
  Permutation tbl tbl' ->
  (forall a b, In a tbl -> In b tbl -> a = b \/ independent a b = true) ->
  forall s, run_table tbl s = run_table tbl' s.
Proof.
  intros P. induction P as [|x l l' P IH|x y l|l l' l'' P1 IH1 P2 IH2];
    intros H s.
  - reflexivity.
  - unfold run_table. cbn [fold_left]. apply IH.
    intros a b Ha Hb. apply H; right; assumption.
  - unfold run_table. cbn [fold_left]. f_equal.
    destruct (H x y) as [-> | Hi]; [right; left; reflexivity | left; reflexivity
                                    | reflexivity |].
    apply (re_sub_commute x y Hi).
  - rewrite IH1 by exact H. apply IH2.
    intros a b Ha Hb. apply H; eapply Permutation_in;
      try (apply Permutation_sym; exact P1); assumption.
Qed.

(** X14.  The order of the rules does not matter: the table applied in any
    other order gives the same content. *)
Theorem rule_order_irrelevant (tbl : list (text * text)) (content : text) :
  Permutation tbl CATEGORY_REPLACEMENTS ->
  run_table tbl content = apply_replacements content.
Proof.
  intros P. symmetry.
  apply (run_table_permutation CATEGORY_REPLACEMENTS tbl (Permutation_sym P)).
  intros a b Ha Hb.
  pose proof table_pairwise_independent as H. unfold pairwise_independent in H.
  rewrite forallb_forall in H. specialize (H a Ha).
  rewrite forallb_forall in H. specialize (H b Hb).
  apply orb_true_iff in H. destruct H as [H | H].
  - left. apply rule_eqb_eq. exact H.
  - right. exact H.
Qed.

Lemma rule_order_irrelevant_witness :
  run_table (rev CATEGORY_REPLACEMENTS) TWO_IMPORTS
  = apply_replacements TWO_IMPORTS.
Proof.
  apply rule_order_irrelevant. apply Permutation_sym, Permutation_rev.
Defined.

(** ** An import that is already there *)

Lemma table_canonical_clear : canonical_clear CATEGORY_REPLACEMENTS = true.
Proof. vm_compute. reflexivity. Qed.

(** A text that the pattern stays clear of is kept where it is, and the
    parts before and after it are rewritten on their own. *)
Lemma re_sub_around (pat rep x : text) :
  pat <> [] -> clear_of pat x = true ->
  forall a b,
    re_sub pat rep (a ++ x ++ b) = re_sub pat rep a ++ x ++ re_sub pat rep b.
Proof.
  intros Hne Hc. apply clear_of_parts in Hc.
  destruct Hc as [Bpx [Bxp [Opx Oxp]]]. intros a b.
  pattern a. apply (re_sub_ind pat Hne); clear a.
  - apply (re_sub_through pat rep x Hne Bxp Opx).
  - intros t IH. rewrite <- app_assoc, !(re_sub_at_match pat rep _ Hne), IH.
    rewrite <- app_assoc. reflexivity.
  - intros c t E IH. cbn [app]. rewrite re_sub_step.
    + rewrite IH, (re_sub_step pat rep c t E). reflexivity.
    + destruct (startswith pat (c :: t ++ x ++ b)) eqn:E'; [|reflexivity].
      change (c :: t ++ x ++ b) with ((c :: t) ++ x ++ b) in E'.
      apply (startswith_before_replacement pat (c :: t) x b Bpx Oxp) in E'.
      congruence.
Qed.

Lemma run_table_keeps_canonical (tbl : list (text * text)) :
  patterns_nonempty tbl = true -> canonical_clear tbl = true ->
  forall s, occurs CANONICAL_IMPORT s -> occurs CANONICAL_IMPORT (run_table tbl s).
Proof.
  unfold patterns_nonempty, canonical_clear.
  induction tbl as [|[p r] tbl IH]; intros Hne Hcl s Hs; [exact Hs|].
  cbn [forallb fst snd] in Hne, Hcl. apply andb_true_iff in Hne, Hcl.
  destruct Hne as [Hp Hne], Hcl as [Hc Hcl]. apply nonempty_true in Hp.
  unfold run_table. cbn [fold_left fst snd]. apply (IH Hne Hcl).
  destruct Hs as [a [b ->]]. rewrite (re_sub_around p r CANONICAL_IMPORT Hp Hc a b).
  exists (re_sub p r a), (re_sub p r b). reflexivity.
Qed.

(** X15.  An import that is already in the file in its canonical spelling
    comes through the rewrite untouched, so the import step adds no second
    one. *)
Theorem existing_import_is_kept (content : text) (fp : filepath) :
  occursb CANONICAL_IMPORT content = true ->
  occursb CANONICAL_IMPORT (fst (rewrite content)) = true
  /\ add_import_if_needed (fst (rewrite content)) fp = fst (rewrite content).
Proof.
  intros H. unfold rewrite. cbn [fst].
  assert (K : occursb CANONICAL_IMPORT (apply_replacements content) = true).
  { apply occursb_iff.
    apply (run_table_keeps_canonical CATEGORY_REPLACEMENTS
             table_patterns_nonempty table_canonical_clear).
    apply occursb_iff. exact H. }
  split; [exact K | apply add_import_present; exact K].
Qed.

Lemma existing_import_is_kept_witness :
  let content := T "import { CATEGORIES } from " ++ lit "../x" ++ T ";"
                 ++ NL :: LINE_BEFORE in
  occursb CANONICAL_IMPORT content = true
  /\ add_import_if_needed (fst (rewrite content)) APP_TS = fst (rewrite content).
Proof.
  cbv zeta. split; [vm_compute; reflexivity|].
  apply (existing_import_is_kept
           (T "import { CATEGORIES } from " ++ lit "../x" ++ T ";"
              ++ NL :: LINE_BEFORE) APP_TS).
  vm_compute. reflexivity.
Defined.

(** ** Rules fire on whole patterns only *)







(** ** A tag that is not a literal of its own *)













